(** * Maze.parse_map: the dual-mode map parser of DungeonAdventure

    A shallow embedding of [Maze.parse_map] (src/Maze.py) together with the
    Grid/Room model it populates, and the properties of the parser that the
    specification states.

    Python strings are lists of characters; the characters are the code
    points below 256.  Python integers that the parser uses are lengths,
    indices and counters, all non-negative: they are [nat].  The debug
    printing of [dbg_parse] has no effect on the result and is left out. *)

From Stdlib Require Import Ascii String Arith Lia.
From stdpp Require Import base option list strings pretty.

Local Open Scope char_scope.
Local Open Scope nat_scope.

(** ** Python string primitives *)

Abbreviation pystr := (list ascii).

Definition str (s : string) : pystr := list_ascii_of_string s.

(** [str.isspace] on one character: U+0009..U+000D, U+001C..U+0020,
    U+0085 and U+00A0. *)
Definition isspace (c : ascii) : bool :=
  let n := nat_of_ascii c in
  ((9 <=? n) && (n <=? 13)) || ((28 <=? n) && (n <=? 32))
  || (n =? 133) || (n =? 160).

(** The line boundaries of [str.splitlines]: LF, VT, FF, CR, FS, GS, RS and
    NEL (CR LF counts as one boundary). *)
Definition is_linebreak (c : ascii) : bool :=
  let n := nat_of_ascii c in
  ((10 <=? n) && (n <=? 13)) || ((28 <=? n) && (n <=? 30)) || (n =? 133).

Fixpoint lstrip (s : pystr) : pystr :=
  match s with
  | c :: s' => if isspace c then lstrip s' else s
  | [] => []
  end.

Definition rstrip (s : pystr) : pystr := rev (lstrip (rev s)).

Definition strip (s : pystr) : pystr := rstrip (lstrip s).

Definition startswith (p s : pystr) : bool := bool_decide (take (length p) s = p).

(** [splitlines_from cur s]: [cur] is the current line, reversed. A last line
    without a boundary is kept unless it is empty. *)
Fixpoint splitlines_from (cur s : pystr) : list pystr :=
  match s with
  | [] => match cur with [] => [] | _ => [rev cur] end
  | c :: s' =>
      if is_linebreak c then
        rev cur ::
          match s' with
          | c' :: s'' =>
              if Ascii.eqb c "013" && Ascii.eqb c' "010"
              then splitlines_from [] s''
              else splitlines_from [] s'
          | [] => splitlines_from [] s'
          end
      else splitlines_from (c :: cur) s'
  end.

Definition splitlines (s : pystr) : list pystr := splitlines_from [] s.

(** ** The Grid/Room model *)

Inductive Direction := North | South | East | West.

(** Modelled from the spec: the Room class (Room.py lies outside the
    verified sources).  Four independent door flags, the content flags, the two
    potion counters and the optional pillar tag; all false, zero or absent at
    construction. *)
Record Room := mkRoom {
  north_door : bool;
  south_door : bool;
  east_door : bool;
  west_door : bool;
  is_entrance : bool;
  is_exit : bool;
  has_pit : bool;
  healing_potions : nat;
  vision_potions : nat;
  pillar : option ascii
}.

Definition empty_room : Room :=
  mkRoom false false false false false false false 0 0 None.

(** Modelled from the spec: [Room.add_door] sets the named door flag of the
    room and has no other effect; setting a flag twice changes nothing. *)
Definition add_door (d : Direction) (r : Room) : Room :=
  match d with
  | North => mkRoom true (south_door r) (east_door r) (west_door r)
               (is_entrance r) (is_exit r) (has_pit r)
               (healing_potions r) (vision_potions r) (pillar r)
  | South => mkRoom (north_door r) true (east_door r) (west_door r)
               (is_entrance r) (is_exit r) (has_pit r)
               (healing_potions r) (vision_potions r) (pillar r)
  | East => mkRoom (north_door r) (south_door r) true (west_door r)
               (is_entrance r) (is_exit r) (has_pit r)
               (healing_potions r) (vision_potions r) (pillar r)
  | West => mkRoom (north_door r) (south_door r) (east_door r) true
               (is_entrance r) (is_exit r) (has_pit r)
               (healing_potions r) (vision_potions r) (pillar r)
  end.

Definition has_door (d : Direction) (r : Room) : bool :=
  match d with
  | North => north_door r
  | South => south_door r
  | East => east_door r
  | West => west_door r
  end.

(** The assignments of the content loop, one per attribute. *)
Definition set_entrance (r : Room) : Room :=
  mkRoom (north_door r) (south_door r) (east_door r) (west_door r)
    true (is_exit r) (has_pit r) (healing_potions r) (vision_potions r) (pillar r).

Definition set_exit (r : Room) : Room :=
  mkRoom (north_door r) (south_door r) (east_door r) (west_door r)
    (is_entrance r) true (has_pit r) (healing_potions r) (vision_potions r) (pillar r).

Definition set_pit (r : Room) : Room :=
  mkRoom (north_door r) (south_door r) (east_door r) (west_door r)
    (is_entrance r) (is_exit r) true (healing_potions r) (vision_potions r) (pillar r).

Definition add_healing (r : Room) : Room :=
  mkRoom (north_door r) (south_door r) (east_door r) (west_door r)
    (is_entrance r) (is_exit r) (has_pit r) (healing_potions r + 1) (vision_potions r)
    (pillar r).

Definition add_vision (r : Room) : Room :=
  mkRoom (north_door r) (south_door r) (east_door r) (west_door r)
    (is_entrance r) (is_exit r) (has_pit r) (healing_potions r) (vision_potions r + 1)
    (pillar r).

Definition set_pillar (c : ascii) (r : Room) : Room :=
  mkRoom (north_door r) (south_door r) (east_door r) (west_door r)
    (is_entrance r) (is_exit r) (has_pit r) (healing_potions r) (vision_potions r)
    (Some c).

(** Modelled from the spec: the Grid class (Grid.py lies outside the
    verified sources).  Width and height are fixed at construction and the
    grid owns one room per coordinate, in row-major order.  The rooms are
    mutable objects shared between the grid and the parser's variable [r]:
    the list [rooms] is the store, and a reference to a room is its
    coordinate (column, row), which is also what its [coords] attribute
    holds. *)
Record Grid := mkGrid {
  width : nat;
  height : nat;
  rooms : list Room
}.

Definition RoomRef := (nat * nat)%type.

(** Modelled from the spec: the construction of a grid, with all flags and
    counters of its rooms at false, zero or absent. *)
Definition new_grid (w h : nat) : Grid := mkGrid w h (replicate (w * h) empty_room).

(** The invariant of the data model: exactly width * height rooms. *)
Definition grid_wf (g : Grid) : Prop := length (rooms g) = width g * height g.

Definition room_index (g : Grid) (r : RoomRef) : nat := snd r * width g + fst r.

(** Modelled from the spec: [Grid.room(col, row)] gives the room at that
    coordinate, or fails when an index is out of bounds ([None] here, which
    the walk turns into the exception). *)
Definition room (g : Grid) (col row : nat) : option RoomRef :=
  if (col <? width g) && (row <? height g) then Some (col, row) else None.

(** Modelled from the spec: the [coords] attribute of a room is its own
    coordinate. *)
Definition coords (r : RoomRef) : nat * nat := r.

(** Reading the room behind a reference, and mutating it in place. *)
Definition get_room (g : Grid) (r : RoomRef) : option Room :=
  rooms g !! room_index g r.

Definition update_room (f : Room → Room) (r : RoomRef) (g : Grid) : Grid :=
  mkGrid (width g) (height g) (alter f (room_index g r) (rooms g)).

Definition door_set (d : Direction) (g : Grid) (r : RoomRef) : bool :=
  match get_room g r with
  | Some rm => has_door d rm
  | None => false
  end.

(** ** The style *)

(** Modelled from the spec: the style descriptor (RoomStyle in Room.py,
    outside the verified sources) with the roles the parser reads.  The corner and the
    vertical glyphs are single characters; the horizontal ones are strings, and
    the length of [wall_n] is the wall segment length. *)
Record RoomStyle := mkStyle {
  corner : ascii;
  wall_n : pystr;
  door_n : pystr;
  door_s : pystr;
  wall_w : ascii;
  door_w : ascii;
  door_e : ascii
}.

(** ** Exceptions *)

(** One constructor per [raise] of [parse_map], holding the values the
    message interpolates, and the two failures of the operations it calls:
    the out-of-bounds failure of [Grid.room] and Python's [IndexError]
    of [line[char_num]]. *)
Inductive Error :=
| BadFirstLineLen (line_num wall_len len : nat)
| BadLineCount (remaining : nat)
| BadLineLen (line_num line_len : nat)
| BadCorner (line_num char_num : nat) (c : ascii)
| BadSeparator (line_num char_num : nat) (c : ascii)
| BadSegment (line_num char_num : nat) (wall : pystr)
| Unrecognized (c : ascii) (where_ : nat * nat)
| OutOfBounds (col row : nat)
| IndexError.

Definition is_grammar_error (e : Error) : bool :=
  match e with
  | BadCorner _ _ _ | BadSeparator _ _ _ | BadSegment _ _ _ => true
  | _ => false
  end.

(** What an error carries: the line number and the column that its message
    starts with ([L{line_num}] and [C{char_num}]), and the room coordinate. *)
Definition err_line (e : Error) : option nat :=
  match e with
  | BadFirstLineLen n _ _ | BadLineLen n _ => Some n
  | BadCorner n _ _ | BadSeparator n _ _ | BadSegment n _ _ => Some n
  | _ => None
  end.

Definition err_col (e : Error) : option nat :=
  match e with
  | BadCorner _ c _ | BadSeparator _ c _ | BadSegment _ c _ => Some c
  | _ => None
  end.

Definition err_room (e : Error) : option (nat * nat) :=
  match e with
  | Unrecognized _ xy => Some xy
  | _ => None
  end.

Definition show (s : pystr) : string := string_of_list_ascii s.

(** The text of the [ValueError]s, as the f-strings build it; the coordinate
    of a room is shown as a pair.  The failures of [Grid.room] and of indexing
    are not [ValueError]s of [parse_map]. *)
Definition message (style : RoomStyle) (e : Error) : option string :=
  match e with
  | BadFirstLineLen n w len =>
      Some ("L" +:+ pretty n +:+ ": expected line len of form " +:+ pretty (w + 1)
            +:+ "*N+1, got " +:+ pretty len)%string
  | BadLineCount k =>
      Some ("expected line count 2*N+1, got " +:+ pretty k)%string
  | BadLineLen n len =>
      Some ("L" +:+ pretty n +:+ ": does not match expected len_len " +:+ pretty len)%string
  | BadCorner n c x =>
      Some ("L" +:+ pretty n +:+ "C" +:+ pretty c +:+ ": expected corner '"
            +:+ show [corner style] +:+ "', got '" +:+ show [x] +:+ "'")%string
  | BadSeparator n c x =>
      Some ("L" +:+ pretty n +:+ "C" +:+ pretty c +:+ ": expected wall '"
            +:+ show [wall_w style] +:+ "' or door '" +:+ show [door_w style]
            +:+ "', got '" +:+ show [x] +:+ "'")%string
  | BadSegment n c w =>
      Some ("L" +:+ pretty n +:+ "C" +:+ pretty c +:+ ": expected north wall '"
            +:+ show (wall_n style) +:+ "' or door '" +:+ show (door_n style)
            +:+ "', but got '" +:+ show w +:+ "'")%string
  | Unrecognized x (col, row) =>
      Some (show [x] +:+ " in room (" +:+ pretty col +:+ ", " +:+ pretty row
            +:+ ") not recognized")%string
  | OutOfBounds _ _ | IndexError => None
  end.

(** ** The parser *)

(** Where the function stands after a line: the loop goes on, or the call
    is over with a value or an exception. *)
Inductive Outcome :=
| Returned (v : option (nat * nat))
| Raised (e : Error).

(** The local variables of [parse_map] that live across lines. *)
Record PState := mkState {
  in_grid : bool;
  south_edge : bool;
  num_rows : nat;
  grid_row : nat;
  want_lat : bool;
  line_num : nat;
  line_len : nat
}.

Definition init_state : PState := mkState false false 0 0 true 0 0.

Inductive Step :=
| Next (st : PState) (g : option Grid)
| Stop (g : option Grid) (out : Outcome).

(** A header line: empty once its trailing whitespace is gone, or starting
    with the comment marker. *)
Definition skippable (raw : pystr) : bool :=
  let line := rstrip raw in
  (length line =? 0) || startswith (str "#") line.

Section Parser.

Variable style : RoomStyle.

Definition wall_len : nat := length (wall_n style).

(** [c in ('A', 'E', 'I', 'P')]. *)
Definition is_pillar (c : ascii) : bool := bool_decide (c ∈ ["A"; "E"; "I"; "P"]).

(** The if/elif chain of the content loop: what a glyph does to the room,
    [None] for a character that is not recognized. *)
Definition glyph (c : ascii) : option (Room → Room) :=
  if Ascii.eqb c "i" then Some set_entrance
  else if Ascii.eqb c "O" then Some set_exit
  else if Ascii.eqb c "X" then Some set_pit
  else if Ascii.eqb c "H" then Some add_healing
  else if Ascii.eqb c "V" then Some add_vision
  else if is_pillar c then Some (set_pillar c)
  else None.

(** The [for c in contents] loop on the room behind [r].  The room is
    mutated as the characters go by, so the glyphs before an unrecognized
    one have had their effect when the exception leaves. *)
Fixpoint parse_contents (contents : pystr) (r : RoomRef) (g : Grid)
  : Grid * option Error :=
  match contents with
  | [] => (g, None)
  | c :: rest =>
      match glyph c with
      | Some f => parse_contents rest r (update_room f r g)
      | None => (g, Some (Unrecognized c (coords r)))
      end
  end.

(** "between vertical walls": the segment that starts at [char_num], after
    the separator, for the room [r] just fetched. *)
Definition parse_segment (want_lat south_edge : bool) (line_num : nat)
    (line : pystr) (char_num : nat) (r : RoomRef) (g : Grid)
  : Grid * option Error :=
  if want_lat then
    let wall := take wall_len (drop char_num line) in
    if bool_decide (wall ≠ wall_n style) && bool_decide (wall ≠ door_n style)
    then (g, Some (BadSegment line_num char_num wall))
    else if south_edge then
      if bool_decide (wall = door_s style)
      then (update_room (add_door South) r g, None) else (g, None)
    else if bool_decide (wall = door_n style)
      then (update_room (add_door North) r g, None) else (g, None)
  else
    let contents := strip (take wall_len (drop char_num line)) in
    parse_contents contents r g.

(** The "walk the line" loop.  Each round moves [char_num] forward by at
    least one, so [length line] rounds of fuel are never used up
    ([walk_line_result] below); [None] stands for running out of fuel. *)
Fixpoint walk (fuel : nat) (want_lat south_edge : bool) (line_num grid_row : nat)
    (line : pystr) (g : Grid) (char_num grid_col : nat) (east_edge : bool)
    (r : option RoomRef) : option (Grid * option Error) :=
  if negb (char_num <? length line) then Some (g, None) else
  match fuel with
  | 0 => None
  | S fuel =>
      let east_edge := if length line <=? char_num + 1 then true else east_edge in
      match line !! char_num with
      | None => Some (g, Some IndexError)
      | Some c =>
          if want_lat && negb (Ascii.eqb c (corner style))
          then Some (g, Some (BadCorner line_num char_num c))
          else if negb want_lat && negb (Ascii.eqb c (wall_w style))
                  && negb (Ascii.eqb c (door_w style))
          then Some (g, Some (BadSeparator line_num char_num c))
          else if east_edge then
            match r with
            | Some r' =>
                if negb want_lat && Ascii.eqb c (door_e style)
                then Some (update_room (add_door East) r' g, None)
                else Some (g, None)
            | None => Some (g, None)
            end
          else
            match room g grid_col grid_row with
            | None => Some (g, Some (OutOfBounds grid_col grid_row))
            | Some r' =>
                let g1 := if negb want_lat && Ascii.eqb c (door_w style)
                          then update_room (add_door West) r' g else g in
                let char_num := char_num + 1 in
                match parse_segment want_lat south_edge line_num line char_num r' g1 with
                | (g2, Some e) => Some (g2, Some e)
                | (g2, None) =>
                    let char_num := char_num + wall_len in
                    let grid_col := if negb east_edge then grid_col + 1 else grid_col in
                    walk fuel want_lat south_edge line_num grid_row line g2
                      char_num grid_col east_edge (Some r')
                end
            end
      end
  end.

Definition walk_line (want_lat south_edge : bool) (line_num grid_row : nat)
    (line : pystr) (g : Grid) : option (Grid * option Error) :=
  walk (length line) want_lat south_edge line_num grid_row line g 0 0 false None.

(** "prep for next line". *)
Definition next_state (st : PState) : PState :=
  let st1 :=
    if negb (want_lat st) then
      if grid_row st + 1 <? num_rows st
      then mkState (in_grid st) (south_edge st) (num_rows st) (grid_row st + 1)
             (want_lat st) (line_num st) (line_len st)
      else mkState (in_grid st) true (num_rows st) (grid_row st)
             (want_lat st) (line_num st) (line_len st)
    else st in
  mkState (in_grid st1) (south_edge st1) (num_rows st1) (grid_row st1)
    (negb (want_lat st1)) (line_num st1) (line_len st1).

(** The body of [for line in lines]; [total] is [len(lines)].  With
    [grid] absent the flag [in_grid] is still false when a line is not
    skipped: that branch returns or raises on the first such line. *)
Definition parse_line (total : nat) (grid : option Grid) (st : PState)
    (raw : pystr) : option Step :=
  let line_num := line_num st + 1 in
  let line := rstrip raw in
  if negb (in_grid st) && ((length line =? 0) || startswith (str "#") line)
  then Some (Next (mkState (in_grid st) (south_edge st) (num_rows st) (grid_row st)
                     (want_lat st) line_num (line_len st)) grid)
  else
    match grid with
    | None =>
        if negb (length line mod (wall_len + 1) =? 1)
        then Some (Stop None (Raised (BadFirstLineLen line_num wall_len (length line))))
        else
          let num_cols := (length line - 1) / (wall_len + 1) in
          if negb ((total - line_num) mod 2 =? 0)
          then Some (Stop None (Raised (BadLineCount (total - line_num))))
          else Some (Stop None (Returned (Some (num_cols, (total - line_num) / 2))))
    | Some g =>
        let st1 :=
          if negb (in_grid st)
          then mkState true (south_edge st) (height g) (grid_row st) (want_lat st)
                 line_num (width g * (wall_len + 1) + 1)
          else mkState (in_grid st) (south_edge st) (num_rows st) (grid_row st)
                 (want_lat st) line_num (line_len st) in
        if negb (length line =? line_len st1)
        then Some (Stop (Some g) (Raised (BadLineLen line_num (line_len st1))))
        else
          '(g', res) ← walk_line (want_lat st1) (south_edge st1) line_num
                         (grid_row st1) line g;
          match res with
          | Some e => Some (Stop (Some g') (Raised e))
          | None =>
              if line_num =? total
              then Some (Stop (Some g') (Returned None))
              else Some (Next (next_state st1) (Some g'))
          end
    end.

Fixpoint parse_lines (total : nat) (grid : option Grid) (st : PState)
    (lines : list pystr) : option (option Grid * Outcome) :=
  match lines with
  | [] => Some (grid, Returned None)
  | raw :: rest =>
      step ← parse_line total grid st raw;
      match step with
      | Next st' grid' => parse_lines total grid' st' rest
      | Stop grid' out => Some (grid', out)
      end
  end.

(** [Maze.parse_map(map_str, grid, style)]: the grid as the call leaves it,
    and the value returned or the exception raised. *)
Definition parse_map (map_str : pystr) (grid : option Grid)
  : option (option Grid * Outcome) :=
  let lines := splitlines map_str in
  parse_lines (length lines) grid init_state lines.

End Parser.

(** ** Sample inputs *)

(** The glyphs of the canned dungeons at the end of [Maze.py]; the door of
    the south side is drawn as that of the north side, and the door of the
    east side as that of the west side. *)
Definition default_style : RoomStyle :=
  mkStyle "+" (str "-----") (str "--H--") (str "--H--") "|" "=" "=".

Definition lf : string := String "010" EmptyString.

(** The two canned dungeons of [Maze.py], after their [lstrip()]. *)
Definition canned1 : pystr := str (
  "# This is my dungeon" +:+ lf +:+
  "+-----+-----+-----+" +:+ lf +:+
  "| i   |     =     |" +:+ lf +:+
  "+--H--+--H--+--H--+" +:+ lf +:+
  "|     =     | O   |" +:+ lf +:+
  "+-----+-----+-----+" +:+ lf).

Definition canned2 : pystr := str (
  "# This is my other dungeon" +:+ lf +:+
  "+-----+-----+-----+" +:+ lf +:+
  "| i   |     = O   |" +:+ lf +:+
  "+--H--+--H--+-----+" +:+ lf +:+
  "| P   = XV  = HH  |" +:+ lf +:+
  "+-----+-----+-----+" +:+ lf).

(** ** Definitions used to state the properties *)

(** The parser state while the header is being skipped. *)
Definition header_state (k : nat) : PState := mkState false false 0 0 true k 0.

Section Answers.

Variable style : RoomStyle.

(** What measure-only mode answers on the first grid line: [n] is its line
    number, [len] its trimmed length, [total] the number of lines. *)
Definition measure_answer (total n len : nat) : Outcome :=
  if negb (len mod (wall_len style + 1) =? 1)
  then Raised (BadFirstLineLen n (wall_len style) len)
  else if negb ((total - n) mod 2 =? 0)
  then Raised (BadLineCount (total - n))
  else Returned (Some ((len - 1) / (wall_len style + 1), (total - n) / 2)).

End Answers.

Definition comments_only : pystr :=
  str ("# a dungeon yet to be drawn" +:+ lf +:+ "   " +:+ lf +:+ lf +:+ "#").

Definition odd_count_map : pystr :=
  str ("# one room," +:+ lf +:+ "# cut short" +:+ lf +:+ "+-----+" +:+ lf +:+ "|     |").

(** ** The layout of a grid line and the effect of its pieces *)

Definition in_bounds (g : Grid) (x : RoomRef) : Prop :=
  x.1 < width g ∧ x.2 < height g.

(** What a cell's characters do to a room when all are recognized, and the
    first character that is not. *)
Fixpoint contents_effect (cs : pystr) (rm : Room) : Room :=
  match cs with
  | [] => rm
  | c :: rest =>
      contents_effect rest (match glyph c with Some f => f rm | None => rm end)
  end.

Fixpoint unrecognized (cs : pystr) : option ascii :=
  match cs with
  | [] => None
  | c :: rest => match glyph c with Some _ => unrecognized rest | None => Some c end
  end.

(** Whether a glyph occurs in a cell, how often, and the last of its pillar
    glyphs. *)
Definition has_glyph (x : ascii) (cs : pystr) : bool := existsb (Ascii.eqb x) cs.

Definition count_glyph (x : ascii) (cs : pystr) : nat := count_occ ascii_dec cs x.

Definition last_pillar (cs : pystr) : option ascii := last (List.filter is_pillar cs).

(** The fields of a room after the glyphs of a cell, all recognized. *)
Definition cell_fields (cs : pystr) (rm rm' : Room) : Prop :=
  is_entrance rm' = is_entrance rm || has_glyph "i" cs
  ∧ is_exit rm' = is_exit rm || has_glyph "O" cs
  ∧ has_pit rm' = has_pit rm || has_glyph "X" cs
  ∧ healing_potions rm' = healing_potions rm + count_glyph "H" cs
  ∧ vision_potions rm' = vision_potions rm + count_glyph "V" cs
  ∧ pillar rm' = match last_pillar cs with Some p => Some p | None => pillar rm end.

Section Layout.

Variable style : RoomStyle.

(** Column [j] of a line: its separator is at [sep_pos j], its segment is the
    [wall_len] characters after it. *)
Definition sep_pos (j : nat) : nat := j * (wall_len style + 1).

Definition segment (line : pystr) (j : nat) : pystr :=
  take (wall_len style) (drop (sep_pos j + 1) line).

Definition cell (line : pystr) (j : nat) : pystr := strip (segment line j).

(** The separators and segments that the checks of the walk let through. *)
Definition sep_accepts (want_lat : bool) (c : ascii) : bool :=
  if want_lat then Ascii.eqb c (corner style)
  else Ascii.eqb c (wall_w style) || Ascii.eqb c (door_w style).

Definition seg_accepts (seg : pystr) : bool :=
  bool_decide (seg = wall_n style) || bool_decide (seg = door_n style).

Definition sep_error (want_lat : bool) (line_num p : nat) (c : ascii) : option Error :=
  if sep_accepts want_lat c then None
  else if want_lat then Some (BadCorner line_num p c)
  else Some (BadSeparator line_num p c).

(** The door a lateral segment sets, the door a separator sets on the room
    to its east, and the door the last separator sets on the last room. *)
Definition lat_effect (south_edge : bool) (seg : pystr) : Room → Room :=
  if south_edge
  then if bool_decide (seg = door_s style) then add_door South else id
  else if bool_decide (seg = door_n style) then add_door North else id.

Definition west_effect (want_lat : bool) (c : ascii) : Room → Room :=
  if negb want_lat && Ascii.eqb c (door_w style) then add_door West else id.

Definition east_effect (want_lat : bool) (c : ascii) : Room → Room :=
  if negb want_lat && Ascii.eqb c (door_e style) then add_door East else id.

Definition seg_effect (want_lat south_edge : bool) (seg : pystr) : Room → Room :=
  if want_lat then lat_effect south_edge seg else contents_effect (strip seg).

End Layout.

(** ** The walk of a line, column by column *)

Section WalkGraph.

Variable style : RoomStyle.
Variables (want_lat south_edge : bool) (line_num grid_row : nat).
Variables (line : pystr) (W : nat).

(** The update at the last separator, on the room of the round before, and
    the update at a separator on the room that follows it. *)
Definition east_close (c : ascii) (r : option RoomRef) (g : Grid) : Grid :=
  match r with
  | Some r' =>
      if negb want_lat && Ascii.eqb c (door_e style)
      then update_room (add_door East) r' g else g
  | None => g
  end.

Definition west_open (c : ascii) (r' : RoomRef) (g : Grid) : Grid :=
  if negb want_lat && Ascii.eqb c (door_w style)
  then update_room (add_door West) r' g else g.

(** [walk_from k r g out]: on a line of [W] columns, the rounds of the loop
    from column [k] on, with [r] the room of the round before and [g] the
    grid, end with [out].  One constructor per way a round can end. *)
Inductive walk_from : nat → option RoomRef → Grid → Grid * option Error → Prop :=
| walk_bad_sep k r g c e :
    k ≤ W →
    line !! sep_pos style k = Some c →
    sep_error style want_lat line_num (sep_pos style k) c = Some e →
    walk_from k r g (g, Some e)
| walk_east r g c :
    line !! sep_pos style W = Some c →
    sep_accepts style want_lat c = true →
    walk_from W r g (east_close c r g, None)
| walk_no_room k r g c :
    k < W →
    line !! sep_pos style k = Some c →
    sep_accepts style want_lat c = true →
    room g k grid_row = None →
    walk_from k r g (g, Some (OutOfBounds k grid_row))
| walk_bad_seg k r g c g2 e :
    k < W →
    line !! sep_pos style k = Some c →
    sep_accepts style want_lat c = true →
    room g k grid_row = Some (k, grid_row) →
    parse_segment style want_lat south_edge line_num line (sep_pos style k + 1)
      (k, grid_row) (west_open c (k, grid_row) g) = (g2, Some e) →
    walk_from k r g (g2, Some e)
| walk_next k r g c g2 out :
    k < W →
    line !! sep_pos style k = Some c →
    sep_accepts style want_lat c = true →
    room g k grid_row = Some (k, grid_row) →
    parse_segment style want_lat south_edge line_num line (sep_pos style k + 1)
      (k, grid_row) (west_open c (k, grid_row) g) = (g2, None) →
    walk_from (S k) (Some (k, grid_row)) g2 out →
    walk_from k r g out.

End WalkGraph.

(** ** The effect of a line that goes through *)

Section LineEffect.

Variable style : RoomStyle.
Variables (want_lat south_edge : bool) (grid_row : nat).
Variables (line : pystr) (W : nat).

Definition sep_char (j : nat) : ascii := nth (sep_pos style j) line "000".

(** What column [j] of the line does to the room of that column. *)
Definition col_effect (j : nat) : Room → Room :=
  seg_effect style want_lat south_edge (segment style line j)
  ∘ west_effect style want_lat (sep_char j).

(** What the rounds from column [k] on do to the room at [x]: the rooms of
    the current row from column [k] on get their column's effect, and the
    last room of that row gets the effect of the last separator. *)
Definition effect_from (k : nat) (x : RoomRef) : Room → Room :=
  (if bool_decide (x.2 = grid_row ∧ x.1 + 1 = W)
   then east_effect style want_lat (sep_char W) else id)
  ∘ (if bool_decide (x.2 = grid_row ∧ k ≤ x.1 < W) then col_effect x.1 else id).

Definition line_effect (x : RoomRef) : Room → Room := effect_from 0 x.

(** The checks that column [j] must pass. *)
Definition col_accepted (j : nat) : Prop :=
  if want_lat then seg_accepts style (segment style line j) = true
  else unrecognized (cell style line j) = None.

End LineEffect.

(** ** The first exception of a line *)

Section LineError.

Variable style : RoomStyle.
Variables (want_lat : bool) (line_num grid_row : nat).
Variables (line : pystr) (W : nat).
(** The width and height of the grid being loaded. *)
Variables (gw gh : nat).

(** The exception that column [j] raises when the walk gets to it: at its
    separator, at the fetch of its room, or in its segment. *)
Definition round_error (j : nat) : option Error :=
  match sep_error style want_lat line_num (sep_pos style j) (sep_char style line j) with
  | Some e => Some e
  | None =>
      if W <=? j then None
      else if negb ((j <? gw) && (grid_row <? gh)) then Some (OutOfBounds j grid_row)
      else if want_lat then
        if seg_accepts style (segment style line j) then None
        else Some (BadSegment line_num (sep_pos style j + 1) (segment style line j))
      else (λ c, Unrecognized c (j, grid_row)) <$> unrecognized (cell style line j)
  end.

Fixpoint first_error_from (n k : nat) : option Error :=
  match n with
  | 0 => None
  | S n' =>
      match round_error k with
      | Some e => Some e
      | None => first_error_from n' (S k)
      end
  end.

Definition line_error : option Error := first_error_from (S W) 0.

End LineError.

(** ** The state of a load, line after line *)

(** The header of an input and the lines from the first grid line on. *)
Fixpoint header (lines : list pystr) : list pystr :=
  match lines with
  | [] => []
  | l :: rest => if skippable l then l :: header rest else []
  end.

Fixpoint grid_lines (lines : list pystr) : list pystr :=
  match lines with
  | [] => []
  | l :: rest => if skippable l then grid_lines rest else lines
  end.

Section LoadState.

Variable style : RoomStyle.
(** The width and the height of the grid being loaded. *)
Variables (W H : nat).

Definition expected_len : nat := W * (wall_len style + 1) + 1.

(** After [c] content lines: the row the next line belongs to, and whether
    the bottom boundary has been reached. *)
Definition row_after (c : nat) : nat := Nat.min c (H - 1).

Definition south_after (c : nat) : bool := (1 <=? c) && (H <=? c).

(** The state before a grid line: [n] lines read, [c] content lines among
    them, [lat] telling whether a lateral line is due. *)
Definition load_state (n c : nat) (lat : bool) : PState :=
  mkState true (south_after c) H (row_after c) lat n expected_len.

Definition phase_next (p : nat * bool) : nat * bool :=
  if p.2 then (p.1, false) else (p.1 + 1, true).

(** The phase before the grid line of index [t], counted from 0. *)
Fixpoint phase (t : nat) : nat * bool :=
  match t with
  | 0 => (0, true)
  | S t' => phase_next (phase t')
  end.

End LoadState.

(** The loop over the lines, keeping the state when the lines run out. *)
Fixpoint run_lines (style : RoomStyle) (total : nat) (grid : option Grid)
    (st : PState) (lines : list pystr) : option Step :=
  match lines with
  | [] => Some (Next st grid)
  | raw :: rest =>
      step ← parse_line style total grid st raw;
      match step with
      | Next st' grid' => run_lines style total grid' st' rest
      | Stop _ _ => Some step
      end
  end.

(** What the body of the loop does on a grid line. *)
Definition load_line (style : RoomStyle) (total n c : nat) (lat : bool) (raw : pystr) (g : Grid)
  : option Step :=
  let line := rstrip raw in
  let LL := expected_len style (width g) in
  if negb (length line =? LL)
  then Some (Stop (Some g) (Raised (BadLineLen (n + 1) LL)))
  else
    '(g', res) ← walk_line style lat (south_after (height g) c) (n + 1)
                   (row_after (height g) c) line g;
    match res with
    | Some e => Some (Stop (Some g') (Raised e))
    | None =>
        if n + 1 =? total
        then Some (Stop (Some g') (Returned None))
        else Some (Next (load_state style (width g) (height g) (n + 1)
                           (phase_next (c, lat)).1 (phase_next (c, lat)).2)
                     (Some g'))
    end.

(** How a load may change a grid: the shape stays, a door that is set stays
    set, the South flag of a room above the last row and the East flag of a
    room before the last column stay as they are. *)
Definition keeps_doors (W H : nat) (x : RoomRef) (rm rm' : Room) : Prop :=
  (∀ d, has_door d rm = true → has_door d rm' = true)
  ∧ (x.2 + 1 < H → south_door rm' = south_door rm)
  ∧ (x.1 + 1 < W → east_door rm' = east_door rm).

Definition evolves (g g' : Grid) : Prop :=
  width g' = width g ∧ height g' = height g
  ∧ ∀ x rm, in_bounds g x → get_room g x = Some rm →
      ∃ rm', get_room g' x = Some rm' ∧ keeps_doors (width g) (height g) x rm rm'.

(** What [parse_map] answers once the loop is over or has stopped. *)
Definition answer (step : Step) : option Grid * Outcome :=
  match step with
  | Next _ g => (g, Returned None)
  | Stop g out => (g, out)
  end.

(** A 3 by 3 dungeon with a door on each kind of wall: between rooms (0,1)
    and (1,1), between rooms (1,0) and (1,1), on the bottom boundary under
    room (1,2) and on the east boundary of room (2,2). *)
Definition doors_map : pystr := str (
  "# doors" +:+ lf +:+
  "+-----+-----+-----+" +:+ lf +:+
  "|     |     |     |" +:+ lf +:+
  "+-----+--H--+-----+" +:+ lf +:+
  "|     = i   |     |" +:+ lf +:+
  "+-----+-----+-----+" +:+ lf +:+
  "|     |     | O   =" +:+ lf +:+
  "+-----+--H--+-----+" +:+ lf).

(** The grid that a load leaves, when it returns. *)
Definition loaded (style : RoomStyle) (map_str : pystr) (g : Grid) : option Grid :=
  match parse_map style map_str (Some g) with
  | Some (Some g', Returned None) => Some g'
  | _ => None
  end.

Definition doors_grid : Grid :=
  Eval vm_compute in default (new_grid 0 0) (loaded default_style doors_map (new_grid 3 3)).

Definition canned2_grid : Grid :=
  Eval vm_compute in default (new_grid 0 0) (loaded default_style canned2 (new_grid 3 2)).

(** A style whose east-door glyph is neither the west-door glyph nor the
    plain wall, and one room with a door on its east side in that style. *)
Definition bracket_style : RoomStyle :=
  mkStyle "+" (str "-----") (str "--H--") (str "--H--") "|" "[" "]".

Definition east_door_map : pystr :=
  str ("+-----+" +:+ lf +:+ "|     ]" +:+ lf +:+ "+-----+").

(** The last content line of the second canned dungeon of [Maze.py], and the
    grid that its walk leaves, on row 1 of an empty 3 by 2 grid. *)
Definition cells_line : pystr := str "| P   = XV  = HH  |".

Definition cells_grid : Grid :=
  Eval vm_compute in
    match walk_line default_style false false 5 1 cells_line (new_grid 3 2) with
    | Some (g, _) => g
    | None => new_grid 0 0
    end.

(** One room with a content line one character short; two rooms with a
    healing potion in the first and an unknown glyph in the second; one room
    with a wrong last corner. *)
Definition short_line_map : pystr :=
  str ("+-----+" +:+ lf +:+ "|    |" +:+ lf +:+ "+-----+").

Definition unknown_glyph_map : pystr :=
  str ("# two rooms" +:+ lf +:+
       "+-----+-----+" +:+ lf +:+
       "| H   = Z   |" +:+ lf +:+
       "+-----+-----+").

Definition unknown_glyph_grid : Grid :=
  Eval vm_compute in
    update_room (add_door West) (1, 0) (update_room add_healing (0, 0) (new_grid 2 1)).

Definition bad_corner_map : pystr :=
  str ("+-----*" +:+ lf +:+ "|     |" +:+ lf +:+ "+-----+").

(** ** Measure-only mode *)

Section Measure.

Variable style : RoomStyle.

Local Abbreviation wlen := (wall_len style).

Lemma parse_line_skip total grid k raw :
  skippable raw = true →
  parse_line style total grid (header_state k) raw
  = Some (Next (header_state (k + 1)) grid).
Proof.
  intros Hs. unfold parse_line, skippable in *. cbn [in_grid header_state negb andb].
  rewrite Hs. reflexivity.
Qed.

Lemma parse_lines_header total grid hdr : ∀ k rest,
  forallb skippable hdr = true →
  parse_lines style total grid (header_state k) (hdr ++ rest)
  = parse_lines style total grid (header_state (k + length hdr)) rest.
Proof.
  induction hdr as [|raw hdr IH]; intros k rest Hall; cbn [app length].
  - by rewrite Nat.add_0_r.
  - cbn [forallb] in Hall. apply andb_prop in Hall as [Hraw Hall].
    cbn [parse_lines]. rewrite parse_line_skip by done. cbn [mbind option_bind].
    rewrite IH by done. f_equal. f_equal. lia.
Qed.

Lemma parse_line_measure total k raw :
  skippable raw = false →
  parse_line style total None (header_state k) raw
  = Some (Stop None (measure_answer style total (k + 1) (length (rstrip raw)))).
Proof.
  intros Hs. unfold parse_line, skippable, measure_answer in *.
  cbn [in_grid header_state negb andb line_num]. rewrite Hs.
  repeat case_match; reflexivity.
Qed.

Lemma measure_first_grid_line map_str hdr first rest :
  splitlines map_str = hdr ++ first :: rest →
  forallb skippable hdr = true →
  skippable first = false →
  parse_map style map_str None
  = Some (None, measure_answer style (length hdr + 1 + length rest) (length hdr + 1)
                  (length (rstrip first))).
Proof.
  intros Hsplit Hhdr Hfirst. unfold parse_map. rewrite Hsplit.
  change init_state with (header_state 0).
  rewrite parse_lines_header by done. cbn [parse_lines].
  rewrite parse_line_measure by done. cbn [mbind option_bind].
  rewrite length_app. cbn [length]. do 3 f_equal. lia.
Qed.

Lemma measure_header_only map_str :
  forallb skippable (splitlines map_str) = true →
  parse_map style map_str None = Some (None, Returned None).
Proof.
  intros Hall. unfold parse_map.
  rewrite <- (app_nil_r (splitlines map_str)) at 2.
  change init_state with (header_state 0).
  by rewrite parse_lines_header.
Qed.

(** Every list of lines is a header alone, or a header and a first grid line. *)
Lemma header_split (lines : list pystr) :
  forallb skippable lines = true
  ∨ ∃ hdr first rest, lines = hdr ++ first :: rest
      ∧ forallb skippable hdr = true ∧ skippable first = false.
Proof.
  induction lines as [|l lines IH]; [by left|].
  destruct (skippable l) eqn:Hl.
  - destruct IH as [IH | (hdr & first & rest & -> & Hh & Hf)].
    + left. cbn. by rewrite Hl.
    + right. exists (l :: hdr), first, rest. cbn. by rewrite Hl.
  - right. by exists [], l, lines.
Qed.

End Measure.

(** ** The grid store *)

Section GridFacts.

Implicit Types (g : Grid) (x y : RoomRef) (f : Room → Room).

Lemma update_room_width f x g : width (update_room f x g) = width g.
Proof. reflexivity. Qed.

Lemma update_room_height f x g : height (update_room f x g) = height g.
Proof. reflexivity. Qed.

Lemma update_room_wf f x g : grid_wf g → grid_wf (update_room f x g).
Proof. unfold grid_wf, update_room. cbn. by rewrite length_alter. Qed.

Lemma update_room_bounds f x g y : in_bounds (update_room f x g) y ↔ in_bounds g y.
Proof. reflexivity. Qed.

Lemma room_Some g c r x :
  room g c r = Some x ↔ c < width g ∧ r < height g ∧ x = (c, r).
Proof.
  unfold room.
  destruct (Nat.ltb_spec c (width g)), (Nat.ltb_spec r (height g)); cbn;
    split; try (intros [= <-]; done); try (intros (? & ? & ->); done || lia).
Qed.

Lemma room_None g c r :
  room g c r = None ↔ ¬ (c < width g ∧ r < height g).
Proof.
  unfold room.
  destruct (Nat.ltb_spec c (width g)), (Nat.ltb_spec r (height g)); cbn;
    split; try done; try lia.
Qed.

Lemma room_index_inj g x y :
  in_bounds g x → in_bounds g y → room_index g x = room_index g y → x = y.
Proof.
  destruct x as [c r], y as [c' r']. unfold in_bounds, room_index. cbn.
  intros [Hc _] [Hc' _] Heq.
  assert (r = r') by nia. subst r'. f_equal. lia.
Qed.

Lemma room_index_lt g x : grid_wf g → in_bounds g x → room_index g x < length (rooms g).
Proof.
  destruct x as [c r]. unfold in_bounds, room_index, grid_wf. cbn.
  intros -> [Hc Hr]. nia.
Qed.

Lemma get_room_is_Some g x : grid_wf g → in_bounds g x → is_Some (get_room g x).
Proof. intros Hwf Hx. apply lookup_lt_is_Some. by apply room_index_lt. Qed.

Lemma get_update_eq f x g : get_room (update_room f x g) x = f <$> get_room g x.
Proof. unfold get_room, update_room, room_index. cbn. apply list_lookup_alter_eq. Qed.

Lemma get_update_ne f x y g :
  in_bounds g x → in_bounds g y → x ≠ y →
  get_room (update_room f x g) y = get_room g y.
Proof.
  intros Hx Hy Hne. unfold get_room, update_room. cbn.
  change (y.2 * width g + y.1) with (room_index g y).
  apply list_lookup_alter_ne. intros Heq. apply Hne. by eapply room_index_inj.
Qed.

Lemma get_update f x y g :
  in_bounds g x → in_bounds g y →
  get_room (update_room f x g) y
  = (if bool_decide (y = x) then f else id) <$> get_room g y.
Proof.
  intros Hx Hy. case_bool_decide as Heq.
  - subst y. apply get_update_eq.
  - rewrite get_update_ne by done. by destruct (get_room g y).
Qed.

Lemma update_room_compose f f' x g :
  update_room f x (update_room f' x g) = update_room (f ∘ f') x g.
Proof.
  unfold update_room, room_index. cbn. f_equal. apply list_alter_alter_eq.
Qed.

Lemma update_room_id x g : update_room id x g = g.
Proof.
  destruct g as [w h l]. unfold update_room. cbn. f_equal. by apply list_alter_id.
Qed.

Lemma new_grid_wf w h : grid_wf (new_grid w h).
Proof. unfold grid_wf, new_grid. cbn. apply length_replicate. Qed.

End GridFacts.

(** ** A content cell and a segment *)

Section SegmentFacts.

Variable style : RoomStyle.

Lemma parse_contents_result cs : ∀ r g,
  parse_contents cs r g
  = match unrecognized cs with
    | None => (update_room (contents_effect cs) r g, None)
    | Some c => ((parse_contents cs r g).1, Some (Unrecognized c r))
    end.
Proof.
  induction cs as [|c cs IH]; intros r g; cbn.
  - by rewrite update_room_id.
  - destruct (glyph c) as [f|] eqn:Hg; [|done].
    rewrite IH. destruct (unrecognized cs); [done|].
    by rewrite update_room_compose.
Qed.

Lemma parse_contents_dims cs : ∀ r g,
  width (parse_contents cs r g).1 = width g
  ∧ height (parse_contents cs r g).1 = height g
  ∧ (grid_wf g → grid_wf (parse_contents cs r g).1).
Proof.
  induction cs as [|c cs IH]; intros r g; cbn; [done|].
  destruct (glyph c) as [f|]; [|done].
  destruct (IH r (update_room f r g)) as (Hw & Hh & Hwf).
  rewrite Hw, Hh. repeat split; try done.
  intros Hg. by apply Hwf, update_room_wf.
Qed.

(** A segment that goes through: what was accepted, and the one update it
    makes to the room. *)
Lemma parse_segment_ok want_lat south_edge line_num line p r g g' :
  parse_segment style want_lat south_edge line_num line p r g = (g', None) →
  let seg := take (wall_len style) (drop p line) in
  g' = update_room (seg_effect style want_lat south_edge seg) r g
  ∧ (want_lat = true → seg_accepts style seg = true)
  ∧ (want_lat = false → unrecognized (strip seg) = None).
Proof.
  intros Hseg seg. unfold parse_segment in Hseg. fold seg in Hseg.
  unfold seg_effect, lat_effect, seg_accepts. destruct want_lat.
  - repeat case_bool_decide; cbn in Hseg; try discriminate;
      destruct south_edge; repeat case_bool_decide; cbn in Hseg;
      injection Hseg as <-; rewrite ?update_room_id; try done.
  - rewrite parse_contents_result in Hseg.
    destruct (unrecognized (strip seg)); [discriminate|].
    injection Hseg as <-. done.
Qed.

(** A segment that fails: which exception, and the grid keeps its shape. *)
Lemma parse_segment_err want_lat south_edge line_num line p r g g' e :
  parse_segment style want_lat south_edge line_num line p r g = (g', Some e) →
  let seg := take (wall_len style) (drop p line) in
  (want_lat = true ∧ seg_accepts style seg = false ∧ e = BadSegment line_num p seg ∧ g' = g)
  ∨ (want_lat = false ∧ ∃ c, unrecognized (strip seg) = Some c ∧ e = Unrecognized c r).
Proof.
  intros Hseg seg. unfold parse_segment in Hseg. fold seg in Hseg.
  unfold seg_accepts. destruct want_lat.
  - left. repeat case_bool_decide; cbn in Hseg;
      try (injection Hseg as <- <-; done);
      destruct south_edge; repeat case_bool_decide; discriminate.
  - right. rewrite parse_contents_result in Hseg.
    destruct (unrecognized (strip seg)) as [c|]; [|discriminate].
    injection Hseg as _ <-. eauto.
Qed.

Lemma parse_segment_dims want_lat south_edge line_num line p r g :
  let res := parse_segment style want_lat south_edge line_num line p r g in
  width res.1 = width g ∧ height res.1 = height g ∧ (grid_wf g → grid_wf res.1).
Proof.
  intros res. subst res. unfold parse_segment. destruct want_lat.
  - repeat case_bool_decide; cbn; try done;
      destruct south_edge; repeat case_bool_decide; cbn; try done;
      repeat split; try done; apply update_room_wf.
  - apply parse_contents_dims.
Qed.

End SegmentFacts.

(** ** The walk of a line *)

Section WalkFacts.

Variable style : RoomStyle.

Local Abbreviation wlen := (wall_len style).
Local Abbreviation pos := (sep_pos style).

Lemma sep_pos_S k : pos (S k) = pos k + 1 + wlen.
Proof. unfold sep_pos. lia. Qed.

Lemma sep_pos_mono j k : j ≤ k → pos j ≤ pos k.
Proof. unfold sep_pos. nia. Qed.

Lemma sep_pos_lt j k : j < k → pos j + 1 + wlen ≤ pos k.
Proof. unfold sep_pos. nia. Qed.

Lemma sep_error_None want_lat n p c :
  sep_error style want_lat n p c = None ↔ sep_accepts style want_lat c = true.
Proof.
  unfold sep_error. destruct (sep_accepts style want_lat c), want_lat; split; done.
Qed.

Lemma sep_error_accepted want_lat n p c :
  sep_accepts style want_lat c = true → sep_error style want_lat n p c = None.
Proof. apply sep_error_None. Qed.

(** The loop and its graph agree, and the fuel is enough: on a line of
    [W] columns the loop started at column [k] ends, as [walk_from] says. *)
Lemma walk_graph want_lat south_edge line_num grid_row line W fuel : ∀ k r g,
  length line = pos W + 1 →
  k ≤ W →
  W - k < fuel →
  ∃ out,
    walk style fuel want_lat south_edge line_num grid_row line g (pos k) k false r
    = Some out
    ∧ walk_from style want_lat south_edge line_num grid_row line W k r g out.
Proof.
  induction fuel as [|fuel IH]; intros k r g Hlen Hk Hfuel; [lia|].
  assert (pos k ≤ pos W) as Hpos by by apply sep_pos_mono.
  destruct (lookup_lt_is_Some_2 line (pos k)) as [c Hc]; [lia|].
  cbn [walk].
  destruct (Nat.ltb_spec (pos k) (length line)) as [_|?]; [|lia].
  cbn [negb]. rewrite Hc.
  destruct (sep_accepts style want_lat c) eqn:Hacc.
  - (* the separator is accepted *)
    assert (want_lat && negb (Ascii.eqb c (corner style)) = false) as ->.
    { unfold sep_accepts in Hacc. destruct want_lat; [by rewrite Hacc|done]. }
    assert (negb want_lat && negb (Ascii.eqb c (wall_w style))
            && negb (Ascii.eqb c (door_w style)) = false) as ->.
    { unfold sep_accepts in Hacc. destruct want_lat; [done|].
      cbn. by destruct (Ascii.eqb c (wall_w style)), (Ascii.eqb c (door_w style)). }
    destruct (Nat.leb_spec (length line) (pos k + 1)) as [Hlast|Hmore].
    + (* last character of the line *)
      assert (k = W) as ->.
      { destruct (decide (k = W)) as [|Hne]; [done|].
        pose proof (sep_pos_lt k W). lia. }
      exists (east_close style want_lat c r g, None). split.
      * unfold east_close. destruct r; [|done]. by case_match.
      * by apply walk_east.
    + assert (k < W) as HkW.
      { destruct (decide (k = W)) as [->|Hne]; lia. }
      destruct (room g k grid_row) as [r'|] eqn:Hroom.
      * apply room_Some in Hroom as Hr'. destruct Hr' as (_ & _ & ->).
        fold (west_open style want_lat c (k, grid_row) g).
        destruct (parse_segment style want_lat south_edge line_num line (pos k + 1)
                    (k, grid_row) (west_open style want_lat c (k, grid_row) g))
          as [g2 [e|]] eqn:Hseg.
        -- exists (g2, Some e). split; [done|]. by eapply walk_bad_seg.
        -- cbn [negb]. rewrite <- sep_pos_S, Nat.add_1_r.
           destruct (IH (S k) (Some (k, grid_row)) g2) as (out & Hwalk & Hgraph);
             [done|lia|lia|].
           exists out. split; [done|]. by eapply walk_next.
      * exists (g, Some (OutOfBounds k grid_row)). split; [done|].
        by eapply walk_no_room.
  - (* the separator is refused *)
    destruct (sep_error style want_lat line_num (pos k) c) as [e|] eqn:Herr;
      [|apply sep_error_None in Herr; congruence].
    exists (g, Some e). split; [|by eapply walk_bad_sep].
    unfold sep_error, sep_accepts in *. rewrite Hacc in Herr.
    destruct want_lat.
    + rewrite Hacc. cbn. congruence.
    + cbn. apply orb_false_elim in Hacc as [-> ->]. cbn. congruence.
Qed.

(** The loop never runs out of fuel (and so never ends for lack of it). *)
Lemma walk_line_graph want_lat south_edge line_num grid_row line W g :
  length line = pos W + 1 →
  ∃ out,
    walk_line style want_lat south_edge line_num grid_row line g = Some out
    ∧ walk_from style want_lat south_edge line_num grid_row line W 0 None g out.
Proof.
  intros Hlen. unfold walk_line.
  destruct (walk_graph want_lat south_edge line_num grid_row line W (length line) 0 None g)
    as (out & Hwalk & Hgraph); [done|lia| |].
  { rewrite Hlen. unfold sep_pos. nia. }
  exists out. split; [|done]. exact Hwalk.
Qed.

End WalkFacts.

Section WalkOk.

Variable style : RoomStyle.
Variables (want_lat south_edge : bool) (line_num grid_row : nat).
Variables (line : pystr) (W : nat).

Local Abbreviation pos := (sep_pos style).
Local Abbreviation walk_from' :=
  (walk_from style want_lat south_edge line_num grid_row line W).
Local Abbreviation effect_from' := (effect_from style want_lat south_edge grid_row line W).
Local Abbreviation col_effect' := (col_effect style want_lat south_edge line).

Lemma sep_char_lookup j c : line !! pos j = Some c → sep_char style line j = c.
Proof. intros Hc. unfold sep_char. by rewrite nth_lookup, Hc. Qed.

Lemma west_open_update c x g :
  west_open style want_lat c x g = update_room (west_effect style want_lat c) x g.
Proof.
  unfold west_open, west_effect. case_match; [done|]. by rewrite update_room_id.
Qed.

Lemma east_close_update c x g :
  east_close style want_lat c (Some x) g
  = update_room (east_effect style want_lat c) x g.
Proof.
  unfold east_close, east_effect. case_match; [done|]. by rewrite update_room_id.
Qed.

Lemma east_close_dims c r g :
  width (east_close style want_lat c r g) = width g
  ∧ height (east_close style want_lat c r g) = height g
  ∧ (grid_wf g → grid_wf (east_close style want_lat c r g)).
Proof.
  unfold east_close. destruct r; [|done]. case_match; [|done].
  repeat split; try reflexivity. apply update_room_wf.
Qed.

(** One round that goes through is one update of the room of its column. *)
Lemma round_update k c g g2 :
  line !! pos k = Some c →
  parse_segment style want_lat south_edge line_num line (pos k + 1)
    (k, grid_row) (west_open style want_lat c (k, grid_row) g) = (g2, None) →
  g2 = update_room (col_effect' k) (k, grid_row) g
  ∧ col_accepted style want_lat line k.
Proof.
  intros Hc Hseg. apply parse_segment_ok in Hseg as (-> & Hlat & Hcont).
  rewrite west_open_update, update_room_compose. split.
  - unfold col_effect, segment. by rewrite (sep_char_lookup k c).
  - unfold col_accepted, cell, segment. destruct want_lat; auto.
Qed.

Lemma effect_from_step k x rm :
  k < W →
  effect_from' (S k) x ((if bool_decide (x = (k, grid_row)) then col_effect' k else id) rm)
  = effect_from' k x rm.
Proof.
  intros Hk. destruct x as [c r]. unfold effect_from. cbn.
  f_equal. destruct (decide ((c, r) = (k, grid_row))) as [[= -> ->]|Hne].
  - rewrite (bool_decide_eq_true_2 (_ = _)) by done.
    rewrite bool_decide_eq_false_2 by lia.
    by rewrite bool_decide_eq_true_2 by lia.
  - rewrite (bool_decide_eq_false_2 (_ = _)) by done. cbn.
    erewrite bool_decide_ext; [done|]. split; [lia|].
    intros [-> Hc]. split; [done|].
    destruct (decide (c = k)) as [->|]; [done|lia].
Qed.

(** A walk that goes through: the grid keeps its shape, every separator and
    every column from [k] on was accepted, the rooms of the row exist, and
    each room of the grid has changed as [effect_from] says. *)
Lemma walk_from_ok k r g out :
  walk_from' k r g out →
  ∀ g', out = (g', None) →
  grid_wf g →
  r = match k with 0 => None | S k' => Some (k', grid_row) end →
  (0 < k → in_bounds g (k - 1, grid_row)) →
  width g' = width g ∧ height g' = height g ∧ grid_wf g'
  ∧ (∀ j, k ≤ j ≤ W → sep_accepts style want_lat (sep_char style line j) = true)
  ∧ (∀ j, k ≤ j < W → in_bounds g (j, grid_row) ∧ col_accepted style want_lat line j)
  ∧ (∀ x, in_bounds g x → get_room g' x = effect_from' k x <$> get_room g x).
Proof.
  induction 1 as [k r g c e Hk Hc Herr | r g c Hc Hacc | k r g c Hk Hc Hacc Hroom
                  | k r g c g2 e Hk Hc Hacc Hroom Hseg
                  | k r g c g2 out Hk Hc Hacc Hroom Hseg Hrest IH];
    intros g' Hout Hwf Hr Hprev; try discriminate.
  - (* the last separator *)
    injection Hout as <-.
    assert (∀ x, in_bounds g x →
      get_room (east_close style want_lat c r g) x = effect_from' W x <$> get_room g x)
      as Hrooms.
    { intros [cx rx] Hx. unfold effect_from. cbn [fst snd].
      rewrite (sep_char_lookup W c) by done.
      assert (bool_decide (rx = grid_row ∧ W ≤ cx < W) = false) as ->
        by (apply bool_decide_eq_false; lia).
      destruct W as [|W'].
      - subst r. cbn [east_close].
        assert (bool_decide (rx = grid_row ∧ cx + 1 = 0) = false) as ->
          by (apply bool_decide_eq_false; lia).
        by destruct (get_room g (cx, rx)).
      - subst r. rewrite east_close_update.
        assert (in_bounds g (W', grid_row)) as Hin.
        { replace W' with (S W' - 1) by lia. apply Hprev. lia. }
        rewrite get_update by done.
        destruct (get_room g (cx, rx)); [|done]. cbn. f_equal.
        erewrite bool_decide_ext; [done|]. split.
        + intros [= -> ->]. lia.
        + intros [-> Hcx]. f_equal. lia. }
    destruct (east_close_dims c r g) as (Hw & Hh & Hwf').
    split; [done|]. split; [done|]. split; [auto|]. split; [|split; [|done]].
    + intros j Hj. assert (j = W) as -> by lia. by rewrite (sep_char_lookup W c).
    + intros j Hj. lia.
  - (* a round, then the rest *)
    apply round_update in Hseg as [-> Hcol]; [|done].
    apply room_Some in Hroom as (Hkw & Hrh & _).
    destruct (IH g' Hout) as (Hw & Hh & Hwf' & Hseps & Hcols & Hrooms).
    { by apply update_room_wf. }
    { done. }
    { intros _. replace (S k - 1) with k by lia. done. }
    rewrite update_room_width in Hw. rewrite update_room_height in Hh.
    split; [done|]. split; [done|]. split; [done|]. split; [|split].
    + intros j Hj. destruct (decide (j = k)) as [->|Hne].
      * by rewrite (sep_char_lookup k c).
      * apply Hseps. lia.
    + intros j Hj. destruct (decide (j = k)) as [->|Hne]; [done|]. apply Hcols. lia.
    + intros x Hx. rewrite Hrooms by done.
      rewrite get_update by done.
      destruct (get_room g x) as [rm|]; [|done]. cbn. f_equal.
      by apply effect_from_step.
Qed.

End WalkOk.

Section WalkResult.

Variable style : RoomStyle.
Variables (want_lat south_edge : bool) (line_num grid_row : nat).
Variables (line : pystr) (W : nat).

Local Abbreviation pos := (sep_pos style).
Local Abbreviation walk_from' :=
  (walk_from style want_lat south_edge line_num grid_row line W).
Local Abbreviation round_error' := (round_error style want_lat line_num grid_row line W).
Local Abbreviation first_error_from' :=
  (first_error_from style want_lat line_num grid_row line W).

Lemma round_error_last gw gh c :
  line !! pos W = Some c →
  sep_accepts style want_lat c = true →
  round_error' gw gh W = None.
Proof.
  intros Hc Hacc. unfold round_error. rewrite (sep_char_lookup style line W c) by done.
  rewrite sep_error_accepted by done.
  by destruct (Nat.leb_spec W W); [|lia].
Qed.

(** The exception of a walk, if any, is the one of the first column that
    raises; the grid keeps its shape whatever the outcome. *)
Lemma walk_from_result k r g out :
  walk_from' k r g out →
  k ≤ W →
  out.2 = first_error_from' (width g) (height g) (S W - k) k
  ∧ width out.1 = width g ∧ height out.1 = height g
  ∧ (grid_wf g → grid_wf out.1).
Proof.
  induction 1 as [k r g c e Hk Hc Herr | r g c Hc Hacc | k r g c Hk Hc Hacc Hroom
                  | k r g c g2 e Hk Hc Hacc Hroom Hseg
                  | k r g c g2 out Hk Hc Hacc Hroom Hseg Hrest IH];
    intros HkW; cbn [fst snd].
  - replace (S W - k) with (S (W - k)) by lia. cbn [first_error_from].
    unfold round_error. rewrite (sep_char_lookup style line k c) by done.
    by rewrite Herr.
  - replace (S W - W) with 1 by lia. cbn [first_error_from].
    rewrite (round_error_last _ _ c) by done.
    split; [done|]. apply east_close_dims.
  - replace (S W - k) with (S (W - k)) by lia. cbn [first_error_from].
    unfold round_error. rewrite (sep_char_lookup style line k c) by done.
    rewrite sep_error_accepted by done.
    destruct (Nat.leb_spec W k); [lia|].
    apply room_None in Hroom.
    destruct (Nat.ltb_spec k (width g)), (Nat.ltb_spec grid_row (height g));
      cbn; try done. exfalso. by apply Hroom.
  - replace (S W - k) with (S (W - k)) by lia. cbn [first_error_from].
    pose proof (parse_segment_dims style want_lat south_edge line_num line (pos k + 1)
                  (k, grid_row) (west_open style want_lat c (k, grid_row) g)) as Hdims.
    rewrite Hseg in Hdims. cbn [fst] in Hdims.
    rewrite west_open_update in Hdims.
    split; [|destruct Hdims as (? & ? & Hwf); repeat split; try done;
             intros ?; by apply Hwf, update_room_wf].
    unfold round_error. rewrite (sep_char_lookup style line k c) by done.
    rewrite sep_error_accepted by done.
    destruct (Nat.leb_spec W k); [lia|].
    apply room_Some in Hroom as (? & ? & _).
    destruct (Nat.ltb_spec k (width g)); [|lia].
    destruct (Nat.ltb_spec grid_row (height g)); [|lia]. cbn [andb negb].
    apply parse_segment_err in Hseg
      as [(-> & Hrej & -> & _) | (-> & c' & Hc' & ->)].
    + unfold segment. by rewrite Hrej.
    + unfold cell, segment. by rewrite Hc'.
  - replace (S W - k) with (S (W - k)) by lia. cbn [first_error_from].
    apply round_update in Hseg as [-> Hcol]; [|done].
    destruct IH as (Hres & Hw & Hh & Hwf); [lia|].
    rewrite update_room_width in *. rewrite update_room_height in *.
    split; [|repeat split; try done; intros ?; by apply Hwf, update_room_wf].
    rewrite Hres. replace (S W - S k) with (W - k) by lia.
    assert (round_error' (width g) (height g) k = None) as ->; [|done].
    unfold round_error. rewrite (sep_char_lookup style line k c) by done.
    rewrite sep_error_accepted by done.
    destruct (Nat.leb_spec W k); [lia|].
    apply room_Some in Hroom as (? & ? & _).
    destruct (Nat.ltb_spec k (width g)); [|lia].
    destruct (Nat.ltb_spec grid_row (height g)); [|lia]. cbn [andb negb].
    unfold col_accepted in Hcol. destruct want_lat; by rewrite Hcol.
Qed.

(** When the columns before [j] raise nothing, the first exception from
    column [k] on is that of column [j]. *)
Lemma first_error_from_at gw gh j e : ∀ n k,
  k ≤ j < k + n →
  (∀ j', k ≤ j' < j → round_error' gw gh j' = None) →
  round_error' gw gh j = Some e →
  first_error_from' gw gh n k = Some e.
Proof.
  induction n as [|n IH]; intros k Hj Hbefore Hat; [lia|].
  cbn [first_error_from]. destruct (decide (k = j)) as [->|Hne].
  - by rewrite Hat.
  - rewrite Hbefore by lia. apply IH; [lia| |done].
    intros j' Hj'. apply Hbefore. lia.
Qed.

(** When no column raises, nothing is raised. *)
Lemma first_error_from_none gw gh : ∀ n k,
  (∀ j, k ≤ j < k + n → round_error' gw gh j = None) →
  first_error_from' gw gh n k = None.
Proof.
  induction n as [|n IH]; intros k Hall; [done|].
  cbn [first_error_from]. rewrite Hall by lia. apply IH.
  intros j Hj. apply Hall. lia.
Qed.

(** An exception that is raised is that of some column, the columns before
    it raising nothing. *)
Lemma first_error_from_inv gw gh e : ∀ n k,
  first_error_from' gw gh n k = Some e →
  ∃ j, k ≤ j < k + n
       ∧ (∀ j', k ≤ j' < j → round_error' gw gh j' = None)
       ∧ round_error' gw gh j = Some e.
Proof.
  induction n as [|n IH]; intros k Hfirst; [done|].
  cbn [first_error_from] in Hfirst.
  destruct (round_error' gw gh k) as [e'|] eqn:Hk.
  - injection Hfirst as ->. exists k. repeat split; [lia|lia| |done].
    intros j' Hj'. lia.
  - apply IH in Hfirst as (j & Hj & Hbefore & Hat).
    exists j. repeat split; [lia|lia| |done].
    intros j' Hj'. destruct (decide (j' = k)) as [->|]; [done|]. apply Hbefore. lia.
Qed.

End WalkResult.

(** ** A whole line *)

Section WalkLine.

Variable style : RoomStyle.
Variables (want_lat south_edge : bool) (line_num grid_row : nat).
Variables (line : pystr) (g : Grid).

Hypothesis Hlen : length line = sep_pos style (width g) + 1.

(** The walk of a line of the expected length ends, with the exception
    that [line_error] gives, and leaves the grid its shape. *)
Lemma walk_line_result :
  ∃ g',
    walk_line style want_lat south_edge line_num grid_row line g
    = Some (g', line_error style want_lat line_num grid_row line (width g)
                  (width g) (height g))
    ∧ width g' = width g ∧ height g' = height g ∧ (grid_wf g → grid_wf g').
Proof.
  destruct (walk_line_graph style want_lat south_edge line_num grid_row line (width g) g Hlen)
    as ([g' res] & Hwalk & Hgraph).
  apply walk_from_result in Hgraph as (Hres & Hdims); [|lia].
  cbn [fst snd] in *. exists g'. rewrite Hwalk, Hres.
  replace (S (width g) - 0) with (S (width g)) by lia. done.
Qed.

(** A line that goes through: every separator and column was accepted, the
    rooms of the row exist, and every room has changed as [line_effect]
    says. *)
Lemma walk_line_ok g' :
  grid_wf g →
  walk_line style want_lat south_edge line_num grid_row line g = Some (g', None) →
  width g' = width g ∧ height g' = height g ∧ grid_wf g'
  ∧ (∀ j, j ≤ width g → sep_accepts style want_lat (sep_char style line j) = true)
  ∧ (∀ j, j < width g → grid_row < height g ∧ col_accepted style want_lat line j)
  ∧ (∀ x, in_bounds g x →
       get_room g' x
       = line_effect style want_lat south_edge grid_row line (width g) x <$> get_room g x).
Proof.
  intros Hwf Hwalk.
  destruct (walk_line_graph style want_lat south_edge line_num grid_row line (width g) g Hlen)
    as (out & Hwalk' & Hgraph).
  rewrite Hwalk in Hwalk'. injection Hwalk' as <-.
  destruct (walk_from_ok style want_lat south_edge line_num grid_row line (width g)
              0 None g (g', None) Hgraph g' eq_refl Hwf eq_refl)
    as (Hw & Hh & Hwf' & Hseps & Hcols & Hrooms); [lia|].
  repeat split; try done.
  - intros j Hj. apply Hseps. lia.
  - apply (Hcols j). lia.
  - apply (Hcols j). lia.
Qed.

End WalkLine.

(** ** The lines of a load *)

Section LoadFacts.

Variable style : RoomStyle.

Local Abbreviation wlen := (wall_len style).

Lemma lines_header_grid lines : lines = header lines ++ grid_lines lines.
Proof.
  induction lines as [|l lines IH]; [done|]. cbn.
  destruct (skippable l); [|done]. cbn. by f_equal.
Qed.

Lemma header_skippable lines : forallb skippable (header lines) = true.
Proof.
  induction lines as [|l lines IH]; [done|]. cbn.
  destruct (skippable l) eqn:Hl; [|done]. cbn. by rewrite Hl.
Qed.

Lemma grid_lines_head lines raw rest :
  grid_lines lines = raw :: rest → skippable raw = false.
Proof.
  induction lines as [|l lines IH]; [done|]. cbn.
  destruct (skippable l) eqn:Hl; [done|]. by intros [= -> _].
Qed.

Lemma phase_double m : phase (2 * m) = (m, true) ∧ phase (2 * m + 1) = (m, false).
Proof.
  induction m as [|m [IH1 IH2]]; [done|].
  replace (2 * S m) with (S (2 * m + 1)) by lia.
  replace (S (2 * m + 1) + 1) with (S (S (2 * m + 1))) by lia.
  cbn [phase]. rewrite IH2. cbn. split; f_equal; lia.
Qed.

Lemma next_load_state W H n c lat :
  next_state (load_state style W H n c lat)
  = load_state style W H n (phase_next (c, lat)).1 (phase_next (c, lat)).2.
Proof.
  unfold next_state, load_state, phase_next, row_after, south_after.
  cbn [fst snd want_lat grid_row num_rows south_edge in_grid line_num line_len].
  destruct lat; cbn [negb fst snd]; [done|].
  destruct (Nat.ltb_spec (Nat.min c (H - 1) + 1) H);
    cbn [fst snd want_lat grid_row num_rows south_edge in_grid line_num line_len negb].
  - f_equal; [|lia].
    destruct (Nat.leb_spec 1 c), (Nat.leb_spec H c), (Nat.leb_spec 1 (c + 1)),
      (Nat.leb_spec H (c + 1)); cbn; try done; lia.
  - f_equal; [|lia].
    destruct (Nat.leb_spec 1 (c + 1)), (Nat.leb_spec H (c + 1)); cbn; try done; lia.
Qed.

Lemma parse_line_load total n c lat raw g :
  parse_line style total (Some g) (load_state style (width g) (height g) n c lat) raw
  = load_line style total n c lat raw g.
Proof.
  unfold parse_line, load_line.
  cbn [load_state in_grid negb andb line_num south_edge num_rows grid_row want_lat line_len].
  destruct (length (rstrip raw) =? expected_len style (width g)); cbn [negb]; [|done].
  destruct (walk_line _ _ _ _ _ _ _) as [[g' [e|]]|]; cbn; try done.
  destruct (n + 1 =? total); [done|].
  pose proof (next_load_state (width g) (height g) (n + 1) c lat) as Hnext.
  unfold load_state in Hnext at 1. by rewrite Hnext.
Qed.

(** The first grid line is treated as any lateral line of row 0. *)
Lemma parse_line_first total n raw g :
  skippable raw = false →
  parse_line style total (Some g) (header_state n) raw
  = load_line style total n 0 true raw g.
Proof.
  intros Hs. rewrite <- parse_line_load. unfold parse_line, skippable in *.
  cbn [header_state load_state in_grid negb andb line_num south_edge num_rows grid_row
       want_lat line_len].
  rewrite Hs. reflexivity.
Qed.

End LoadFacts.

(** ** Doors are kept *)

Section Doors.

Variable style : RoomStyle.

Lemma keeps_doors_refl W H x rm : keeps_doors W H x rm rm.
Proof. by repeat split. Qed.

Lemma keeps_doors_trans W H x rm1 rm2 rm3 :
  keeps_doors W H x rm1 rm2 → keeps_doors W H x rm2 rm3 → keeps_doors W H x rm1 rm3.
Proof.
  intros (Hd & Hs & He) (Hd' & Hs' & He'). repeat split.
  - intros d Hset. by apply Hd', Hd.
  - intros Hx. by rewrite Hs', Hs.
  - intros Hx. by rewrite He', He.
Qed.

Lemma keeps_add_door W H x d rm :
  (d = South → H ≤ x.2 + 1) →
  (d = East → W ≤ x.1 + 1) →
  keeps_doors W H x rm (add_door d rm).
Proof.
  intros Hs He. repeat split.
  - intros d' Hset. destruct d, d'; cbn in *; auto.
  - intros Hx. destruct d; cbn; try done. specialize (Hs eq_refl). lia.
  - intros Hx. destruct d; cbn; try done. specialize (He eq_refl). lia.
Qed.

Lemma glyph_doors c f rm d : glyph c = Some f → has_door d (f rm) = has_door d rm.
Proof.
  unfold glyph. intros Hg.
  repeat (case_match; simplify_eq); by destruct d.
Qed.

Lemma contents_effect_doors cs : ∀ rm d,
  has_door d (contents_effect cs rm) = has_door d rm.
Proof.
  induction cs as [|c cs IH]; intros rm d; cbn; [done|].
  rewrite IH. destruct (glyph c) eqn:Hg; [|done]. by eapply glyph_doors.
Qed.

Lemma keeps_contents W H x cs rm : keeps_doors W H x rm (contents_effect cs rm).
Proof.
  repeat split.
  - intros d. by rewrite contents_effect_doors.
  - intros _. apply (contents_effect_doors cs rm South).
  - intros _. apply (contents_effect_doors cs rm East).
Qed.

(** The effect of a line keeps the doors, provided the bottom boundary is
    only ever met on the last row. *)
Lemma line_effect_keeps want_lat south_edge grid_row line W H x rm :
  (south_edge = true → H ≤ grid_row + 1) →
  keeps_doors W H x rm (line_effect style want_lat south_edge grid_row line W x rm).
Proof.
  intros Hsouth. unfold line_effect, effect_from. cbn [compose].
  match goal with
  | |- keeps_doors _ _ _ _ (_ (?h rm)) =>
      set (mid := h rm); apply (keeps_doors_trans _ _ _ _ mid);
      [subst mid|clearbody mid]
  end.
  - case_bool_decide as Hrow; [|apply keeps_doors_refl].
    unfold col_effect. cbn [compose].
    match goal with
    | |- keeps_doors _ _ _ _ (_ (?h rm)) =>
        set (mid := h rm); apply (keeps_doors_trans _ _ _ _ mid);
        [subst mid|clearbody mid]
    end.
    + unfold west_effect. case_match; [|apply keeps_doors_refl].
      by apply keeps_add_door.
    + unfold seg_effect, lat_effect. destruct want_lat; [|apply keeps_contents].
      destruct south_edge; case_bool_decide; try apply keeps_doors_refl.
      * apply keeps_add_door; [|done]. intros _. destruct Hrow as [-> _]. by apply Hsouth.
      * by apply keeps_add_door.
  - case_bool_decide as Hlast; [|apply keeps_doors_refl].
    unfold east_effect. case_match; [|apply keeps_doors_refl].
    apply keeps_add_door; [done|]. intros _. lia.
Qed.

Lemma evolves_refl g : evolves g g.
Proof. repeat split. intros x rm _ Hrm. exists rm. split; [done|]. apply keeps_doors_refl. Qed.

Lemma evolves_trans g1 g2 g3 : evolves g1 g2 → evolves g2 g3 → evolves g1 g3.
Proof.
  intros (Hw & Hh & Hr) (Hw' & Hh' & Hr'). repeat split; [congruence|congruence|].
  intros x rm Hx Hrm. destruct (Hr x rm Hx Hrm) as (rm2 & Hrm2 & Hk).
  destruct (Hr' x rm2) as (rm3 & Hrm3 & Hk'); [|done|].
  { unfold in_bounds in *. by rewrite Hw, Hh. }
  exists rm3. split; [done|]. rewrite Hw, Hh in Hk'. by eapply keeps_doors_trans.
Qed.

(** A line that goes through keeps the doors of the grid. *)
Lemma walk_line_evolves want_lat south_edge line_num grid_row line g g' :
  length line = sep_pos style (width g) + 1 →
  grid_wf g →
  (south_edge = true → height g ≤ grid_row + 1) →
  walk_line style want_lat south_edge line_num grid_row line g = Some (g', None) →
  evolves g g'.
Proof.
  intros Hlen Hwf Hsouth Hwalk.
  destruct (walk_line_ok style want_lat south_edge line_num grid_row line g Hlen g' Hwf Hwalk)
    as (Hw & Hh & _ & _ & _ & Hrooms).
  repeat split; try done.
  intros x rm Hx Hrm. rewrite Hrooms, Hrm by done. cbn.
  eexists. split; [done|]. by apply line_effect_keeps.
Qed.

Lemma south_after_last_row H c : south_after H c = true → H ≤ row_after H c + 1.
Proof.
  unfold south_after, row_after. intros [_ Hc%Nat.leb_le]%andb_prop. lia.
Qed.

End Doors.

(** ** The loop over the lines *)

Section Lines.

Variable style : RoomStyle.
Variable total : nat.

Lemma parse_lines_run lines : ∀ grid st,
  parse_lines style total grid st lines
  = answer <$> run_lines style total grid st lines.
Proof.
  induction lines as [|raw rest IH]; intros grid st; cbn; [done|].
  destruct (parse_line style total grid st raw) as [[st' grid'|grid' out]|]; cbn; auto.
Qed.

Lemma run_lines_app l1 l2 : ∀ grid st,
  run_lines style total grid st (l1 ++ l2)
  = step ← run_lines style total grid st l1;
    match step with
    | Next st' grid' => run_lines style total grid' st' l2
    | Stop _ _ => Some step
    end.
Proof.
  induction l1 as [|raw rest IH]; intros grid st; cbn; [done|].
  destruct (parse_line style total grid st raw) as [[st' grid'|grid' out]|]; cbn; auto.
Qed.

Lemma run_lines_header grid hdr : ∀ k,
  forallb skippable hdr = true →
  run_lines style total grid (header_state k) hdr
  = Some (Next (header_state (k + length hdr)) grid).
Proof.
  induction hdr as [|raw hdr IH]; intros k Hall; cbn [run_lines length].
  - by rewrite Nat.add_0_r.
  - cbn [forallb] in Hall. apply andb_prop in Hall as [Hraw Hall].
    rewrite parse_line_skip by done. cbn [mbind option_bind].
    rewrite IH by done. do 3 f_equal. lia.
Qed.

(** From the first grid line on, the header state and the state of a load
    before its first line do the same. *)
Lemma run_lines_first g n raw rest :
  skippable raw = false →
  run_lines style total (Some g) (header_state n) (raw :: rest)
  = run_lines style total (Some g) (load_state style (width g) (height g) n 0 true)
      (raw :: rest).
Proof.
  intros Hs. cbn [run_lines]. by rewrite parse_line_first, parse_line_load.
Qed.

(** The lines that a load has gone through leave the state of their phase,
    a grid of the same shape, and the doors that were set. *)
Lemma run_lines_load pre : ∀ n t g st og,
  grid_wf g →
  run_lines style total (Some g)
    (load_state style (width g) (height g) n (phase t).1 (phase t).2) pre
  = Some (Next st og) →
  ∃ g', og = Some g'
        ∧ st = load_state style (width g) (height g) (n + length pre)
                 (phase (t + length pre)).1 (phase (t + length pre)).2
        ∧ grid_wf g' ∧ evolves g g'.
Proof.
  induction pre as [|raw rest IH]; intros n t g st og Hwf Hrun.
  - cbn in Hrun. injection Hrun as <- <-. exists g.
    rewrite !Nat.add_0_r. split; [done|]. split; [done|]. split; [done|].
    apply evolves_refl.
  - cbn [run_lines] in Hrun. rewrite parse_line_load in Hrun. unfold load_line in Hrun.
    destruct (Nat.eqb_spec (length (rstrip raw)) (expected_len style (width g)))
      as [Hlen|]; cbn [negb] in Hrun; [|discriminate].
    destruct (walk_line _ _ _ _ _ _ _) as [[g1 [e|]]|] eqn:Hwalk;
      cbn [mbind option_bind] in Hrun; try discriminate.
    destruct (n + 1 =? total); [discriminate|]. cbn [mbind option_bind] in Hrun.
    destruct (walk_line_ok style _ _ _ _ _ g Hlen g1 Hwf Hwalk) as (Hw & Hh & Hwf1 & _).
    apply walk_line_evolves in Hwalk as Hev; [|done|done|apply south_after_last_row].
    rewrite <- Hw, <- Hh in Hrun.
    change (phase_next ((phase t).1, (phase t).2)) with (phase (S t)) in Hrun.
    apply IH in Hrun as (g' & -> & -> & Hwf' & Hev'); [|done].
    exists g'. rewrite Hw, Hh. cbn [length].
    replace (n + 1 + length rest) with (n + S (length rest)) by lia.
    replace (S t + length rest) with (t + S (length rest)) by lia.
    split; [done|]. split; [done|]. split; [done|]. by eapply evolves_trans.
Qed.

(** A load that returns: every line met the expected length and went
    through, each from a grid that the grid given has evolved into and to a
    grid that evolves into the final one. *)
Lemma load_success ls : ∀ n t g gf,
  grid_wf g →
  total = n + length ls →
  parse_lines style total (Some g)
    (load_state style (width g) (height g) n (phase t).1 (phase t).2) ls
  = Some (Some gf, Returned None) →
  evolves g gf ∧ grid_wf gf
  ∧ ∀ i raw, ls !! i = Some raw →
      ∃ gi gi',
        evolves g gi ∧ grid_wf gi ∧ evolves gi' gf
        ∧ length (rstrip raw) = expected_len style (width g)
        ∧ walk_line style (phase (t + i)).2 (south_after (height g) (phase (t + i)).1)
            (n + i + 1) (row_after (height g) (phase (t + i)).1) (rstrip raw) gi
          = Some (gi', None).
Proof.
  induction ls as [|raw rest IH]; intros n t g gf Hwf Htotal Hparse.
  - cbn in Hparse. injection Hparse as <-.
    split; [apply evolves_refl|]. split; [done|]. intros i raw Hi. done.
  - cbn [parse_lines] in Hparse. rewrite parse_line_load in Hparse.
    unfold load_line in Hparse.
    destruct (Nat.eqb_spec (length (rstrip raw)) (expected_len style (width g)))
      as [Hlen|]; cbn [negb] in Hparse; [|discriminate].
    destruct (walk_line _ _ _ _ _ _ _) as [[g1 [e|]]|] eqn:Hwalk;
      cbn [mbind option_bind] in Hparse; try discriminate.
    destruct (walk_line_ok style _ _ _ _ _ g Hlen g1 Hwf Hwalk) as (Hw & Hh & Hwf1 & _).
    apply walk_line_evolves in Hwalk as Hev; [|done|done|apply south_after_last_row].
    destruct (Nat.eqb_spec (n + 1) total) as [Hlast|Hmore].
    + (* the last line *)
      cbn [mbind option_bind] in Hparse. injection Hparse as <-. cbn [length] in Htotal.
      assert (rest = []) as -> by (apply length_zero_iff_nil; lia).
      split; [done|]. split; [done|]. intros [|i] raw' Hi; [|done].
      injection Hi as <-. exists g, g1. rewrite !Nat.add_0_r.
      split; [apply evolves_refl|]. split; [done|]. split; [apply evolves_refl|]. done.
    + cbn [mbind option_bind] in Hparse. rewrite <- Hw, <- Hh in Hparse.
      change (phase_next ((phase t).1, (phase t).2)) with (phase (S t)) in Hparse.
      apply IH in Hparse as (Hevf & Hwff & Hlines); [|done|cbn [length] in Htotal; lia].
      split; [by eapply evolves_trans|]. split; [done|].
      intros [|i] raw' Hi.
      * injection Hi as <-. exists g, g1. rewrite !Nat.add_0_r.
        split; [apply evolves_refl|]. done.
      * cbn in Hi. destruct (Hlines i raw' Hi) as (gi & gi' & H1 & H2 & H3 & H4 & H5).
        exists gi, gi'. rewrite Hw, Hh in *.
        replace (t + S i) with (S t + i) by lia.
        replace (n + S i + 1) with (n + 1 + i + 1) by lia.
        split; [by eapply evolves_trans|]. done.
Qed.

End Lines.

(** ** A whole load *)

Section Load.

Variable style : RoomStyle.

(** A load is the loop over the grid lines, started in the state of a load
    before its first line. *)
Lemma parse_map_load map_str g0 :
  let lines := splitlines map_str in
  parse_map style map_str (Some g0)
  = parse_lines style (length lines) (Some g0)
      (load_state style (width g0) (height g0) (length (header lines)) 0 true)
      (grid_lines lines).
Proof.
  intros lines. unfold parse_map. fold lines.
  generalize (length lines). intros total.
  rewrite (lines_header_grid lines) at 1.
  change init_state with (header_state 0).
  rewrite parse_lines_header by apply header_skippable. cbn [Nat.add].
  destruct (grid_lines lines) as [|raw rest] eqn:Hgl; [done|].
  apply grid_lines_head in Hgl. cbn [parse_lines].
  by rewrite parse_line_first, parse_line_load.
Qed.

(** The lines of a load that returns. *)
Lemma load_success_lines map_str g0 gf :
  grid_wf g0 →
  parse_map style map_str (Some g0) = Some (Some gf, Returned None) →
  let lines := splitlines map_str in
  evolves g0 gf ∧ grid_wf gf
  ∧ ∀ i raw, grid_lines lines !! i = Some raw →
      ∃ gi gi',
        evolves g0 gi ∧ grid_wf gi ∧ evolves gi' gf
        ∧ length (rstrip raw) = expected_len style (width g0)
        ∧ walk_line style (phase i).2 (south_after (height g0) (phase i).1)
            (length (header lines) + i + 1) (row_after (height g0) (phase i).1)
            (rstrip raw) gi
          = Some (gi', None).
Proof.
  intros Hwf Hparse lines. rewrite parse_map_load in Hparse. fold lines in Hparse.
  change 0 with (phase 0).1 in Hparse at 1.
  change true with (phase 0).2 in Hparse.
  apply load_success in Hparse; [done|done|].
  rewrite (lines_header_grid lines) at 1. by rewrite length_app.
Qed.

Lemma evolves_door d g g' x :
  evolves g g' → grid_wf g → in_bounds g x →
  door_set d g x = true → door_set d g' x = true.
Proof.
  intros (_ & _ & Hrooms) Hwf Hx. unfold door_set.
  destruct (get_room g x) as [rm|] eqn:Hrm; [|done].
  destruct (Hrooms x rm Hx Hrm) as (rm' & -> & Hkeep & _). apply Hkeep.
Qed.

Lemma evolves_bounds g g' x : evolves g g' → in_bounds g x ↔ in_bounds g' x.
Proof. intros (Hw & Hh & _). unfold in_bounds. by rewrite Hw, Hh. Qed.

End Load.

(** ** The doors that a line sets *)

Section LineDoors.

Variable style : RoomStyle.
Variables (grid_row : nat) (line : pystr) (W : nat).

Lemma east_effect_keeps d want_lat c rm :
  has_door d rm = true → has_door d (east_effect style want_lat c rm) = true.
Proof.
  unfold east_effect. case_match; [|done]. by destruct d.
Qed.

Lemma line_effect_north x rm :
  x.2 = grid_row → x.1 < W →
  segment style line x.1 = door_n style →
  north_door (line_effect style true false grid_row line W x rm) = true.
Proof.
  intros Hrow Hcol Hseg. unfold line_effect, effect_from. cbn [compose].
  rewrite (bool_decide_eq_true_2 (x.2 = grid_row ∧ 0 ≤ x.1 < W)) by (split; [done|lia]).
  assert (north_door (col_effect style true false line x.1 rm) = true) as Hn.
  { unfold col_effect, seg_effect, lat_effect. cbn [compose].
    by rewrite bool_decide_eq_true_2 by done. }
  case_bool_decide; [|done]. by apply (east_effect_keeps North).
Qed.

Lemma line_effect_south x rm :
  x.2 = grid_row → x.1 < W →
  segment style line x.1 = door_s style →
  south_door (line_effect style true true grid_row line W x rm) = true.
Proof.
  intros Hrow Hcol Hseg. unfold line_effect, effect_from. cbn [compose].
  rewrite (bool_decide_eq_true_2 (x.2 = grid_row ∧ 0 ≤ x.1 < W)) by (split; [done|lia]).
  assert (south_door (col_effect style true true line x.1 rm) = true) as Hn.
  { unfold col_effect, seg_effect, lat_effect. cbn [compose].
    by rewrite bool_decide_eq_true_2 by done. }
  case_bool_decide; [|done]. by apply (east_effect_keeps South).
Qed.

Lemma line_effect_west south_edge x rm :
  x.2 = grid_row → x.1 < W →
  sep_char style line x.1 = door_w style →
  west_door (line_effect style false south_edge grid_row line W x rm) = true.
Proof.
  intros Hrow Hcol Hsep. unfold line_effect, effect_from. cbn [compose].
  rewrite (bool_decide_eq_true_2 (x.2 = grid_row ∧ 0 ≤ x.1 < W)) by (split; [done|lia]).
  assert (west_door (col_effect style false south_edge line x.1 rm) = true) as Hn.
  { unfold col_effect, seg_effect, west_effect. cbn [compose negb andb].
    rewrite Hsep, Ascii.eqb_refl.
    by rewrite (contents_effect_doors _ _ West). }
  case_bool_decide; [|done]. by apply (east_effect_keeps West).
Qed.

Lemma line_effect_east south_edge x rm :
  x.2 = grid_row → x.1 + 1 = W →
  sep_char style line W = door_e style →
  east_door (line_effect style false south_edge grid_row line W x rm) = true.
Proof.
  intros Hrow Hcol Hsep. unfold line_effect, effect_from. cbn [compose].
  rewrite (bool_decide_eq_true_2 (x.2 = grid_row ∧ x.1 + 1 = W)) by done.
  unfold east_effect. cbn [negb andb]. by rewrite Hsep, Ascii.eqb_refl.
Qed.

End LineDoors.

(** ** Reaching a line, and stopping at it *)

Section Reach.

Variable style : RoomStyle.

Lemma parse_lines_app total l1 l2 grid st :
  parse_lines style total grid st (l1 ++ l2)
  = step ← run_lines style total grid st l1;
    match step with
    | Next st' grid' => parse_lines style total grid' st' l2
    | Stop grid' out => Some (grid', out)
    end.
Proof.
  rewrite parse_lines_run, run_lines_app.
  destruct (run_lines style total grid st l1) as [[st' grid'|grid' out]|]; cbn; try done.
  by rewrite parse_lines_run.
Qed.

(** When the lines before line [n] (counted from 0) have gone through and
    line [n] is a grid line, the body of the loop runs on it as [load_line]
    says for its phase, on a grid of the shape of the one given. *)
Lemma reach_line map_str g0 n st og raw :
  grid_wf g0 →
  run_lines style (length (splitlines map_str)) (Some g0) init_state
    (take n (splitlines map_str)) = Some (Next st og) →
  splitlines map_str !! n = Some raw →
  length (header (splitlines map_str)) ≤ n →
  ∃ gn,
    og = Some gn ∧ grid_wf gn ∧ width gn = width g0 ∧ height gn = height g0
    ∧ parse_line style (length (splitlines map_str)) og st raw
      = load_line style (length (splitlines map_str)) n
          (phase (n - length (header (splitlines map_str)))).1
          (phase (n - length (header (splitlines map_str)))).2 raw gn.
Proof.
  set (lines := splitlines map_str). set (total := length lines).
  intros Hwf Hrun Hraw Hn.
  set (h := length (header lines)) in *.
  assert (take n lines = header lines ++ take (n - h) (grid_lines lines)) as Htake.
  { rewrite (lines_header_grid lines) at 1. by rewrite take_app_ge. }
  assert (grid_lines lines !! (n - h) = Some raw) as Hgl.
  { rewrite (lines_header_grid lines) in Hraw. by rewrite lookup_app_r in Hraw. }
  rewrite Htake, run_lines_app in Hrun.
  change init_state with (header_state 0) in Hrun.
  rewrite run_lines_header in Hrun by apply header_skippable.
  cbn [mbind option_bind Nat.add] in Hrun. fold h in Hrun.
  destruct (n - h) as [|t] eqn:Ht.
  - (* the first grid line *)
    cbn in Hrun. injection Hrun as <- <-. exists g0.
    destruct (grid_lines lines) as [|raw' rest] eqn:Hgrid; [done|].
    injection Hgl as ->. apply grid_lines_head in Hgrid.
    replace n with h by lia. repeat split; try done.
    by apply parse_line_first.
  - destruct (grid_lines lines) as [|first rest] eqn:Hgrid; [done|].
    apply grid_lines_head in Hgrid as Hfirst.
    cbn [take] in Hrun. rewrite run_lines_first in Hrun by done.
    change 0 with (phase 0).1 in Hrun at 1. change true with (phase 0).2 in Hrun.
    apply run_lines_load in Hrun as (gn & -> & -> & Hwfn & Hw & Hh & _); [|done].
    exists gn. repeat split; try done.
    assert (length (first :: take t rest) = S t) as ->.
    { cbn. f_equal. apply length_take_le.
      apply lookup_lt_Some in Hgl. cbn in Hgl. lia. }
    replace (h + S t) with n by lia. cbn [Nat.add].
    rewrite <- Hw, <- Hh. apply parse_line_load.
Qed.

(** When the body of the loop stops at line [n], so does the call. *)
Lemma stop_at_line map_str g0 n st og raw og' out :
  run_lines style (length (splitlines map_str)) (Some g0) init_state
    (take n (splitlines map_str)) = Some (Next st og) →
  splitlines map_str !! n = Some raw →
  parse_line style (length (splitlines map_str)) og st raw = Some (Stop og' out) →
  parse_map style map_str (Some g0) = Some (og', out).
Proof.
  intros Hrun Hraw Hstop. unfold parse_map.
  rewrite <- (take_drop_middle _ _ _ Hraw) at 2.
  rewrite parse_lines_app, Hrun. cbn [mbind option_bind parse_lines].
  by rewrite Hstop.
Qed.

End Reach.

(** ** The exception of a column *)

Section RoundError.

Variable style : RoomStyle.
Variables (want_lat : bool) (line_num grid_row : nat).
Variables (line : pystr) (W gw gh : nat).

Local Abbreviation round_error' :=
  (round_error style want_lat line_num grid_row line W gw gh).

Lemma round_error_ok j :
  sep_accepts style want_lat (sep_char style line j) = true →
  (j < W → j < gw ∧ grid_row < gh ∧ col_accepted style want_lat line j) →
  round_error' j = None.
Proof.
  intros Hsep Hcol. unfold round_error. rewrite sep_error_accepted by done.
  destruct (Nat.leb_spec W j) as [|HjW]; [done|].
  destruct (Hcol HjW) as (Hj & Hrow & Hacc).
  destruct (Nat.ltb_spec j gw); [|lia]. destruct (Nat.ltb_spec grid_row gh); [|lia].
  cbn [andb negb]. unfold col_accepted in Hacc. destruct want_lat; by rewrite Hacc.
Qed.

Lemma round_error_sep j :
  sep_accepts style want_lat (sep_char style line j) = false →
  round_error' j
  = Some (if want_lat
          then BadCorner line_num (sep_pos style j) (sep_char style line j)
          else BadSeparator line_num (sep_pos style j) (sep_char style line j)).
Proof.
  intros Hsep. unfold round_error, sep_error. rewrite Hsep. by destruct want_lat.
Qed.

Lemma round_error_seg j :
  want_lat = true →
  sep_accepts style want_lat (sep_char style line j) = true →
  j < W → j < gw → grid_row < gh →
  seg_accepts style (segment style line j) = false →
  round_error' j
  = Some (BadSegment line_num (sep_pos style j + 1) (segment style line j)).
Proof.
  intros Hlat Hsep HjW Hj Hrow Hseg. unfold round_error.
  rewrite sep_error_accepted by done.
  destruct (Nat.leb_spec W j); [lia|].
  destruct (Nat.ltb_spec j gw); [|lia]. destruct (Nat.ltb_spec grid_row gh); [|lia].
  cbn [andb negb]. by rewrite Hlat, Hseg.
Qed.

Lemma round_error_cell j c :
  want_lat = false →
  sep_accepts style want_lat (sep_char style line j) = true →
  j < W → j < gw → grid_row < gh →
  unrecognized (cell style line j) = Some c →
  round_error' j = Some (Unrecognized c (j, grid_row)).
Proof.
  intros Hlat Hsep HjW Hj Hrow Hcell. unfold round_error.
  rewrite sep_error_accepted by done.
  destruct (Nat.leb_spec W j); [lia|].
  destruct (Nat.ltb_spec j gw); [|lia]. destruct (Nat.ltb_spec grid_row gh); [|lia].
  cbn [andb negb]. by rewrite Hlat, Hcell.
Qed.

(** A grammar exception of a column is raised at its separator, which is
    not accepted, or, on a lateral line, at its segment, which is not. *)
Lemma round_error_grammar j e :
  round_error' j = Some e →
  is_grammar_error e = true →
  err_line e = Some line_num
  ∧ ((sep_accepts style want_lat (sep_char style line j) = false
      ∧ err_col e = Some (sep_pos style j)
      ∧ e = (if want_lat
             then BadCorner line_num (sep_pos style j) (sep_char style line j)
             else BadSeparator line_num (sep_pos style j) (sep_char style line j)))
     ∨ (want_lat = true ∧ j < W
        ∧ sep_accepts style want_lat (sep_char style line j) = true
        ∧ seg_accepts style (segment style line j) = false
        ∧ err_col e = Some (sep_pos style j + 1)
        ∧ e = BadSegment line_num (sep_pos style j + 1) (segment style line j))).
Proof.
  unfold round_error, sep_error.
  destruct (sep_accepts style want_lat (sep_char style line j)) eqn:Hsep.
  - destruct (Nat.leb_spec W j); [done|].
    destruct (negb _); [by intros [= <-]|].
    destruct want_lat.
    + destruct (seg_accepts style (segment style line j)) eqn:Hseg; [done|].
      intros [= <-] _. split; [done|]. right. done.
    + destruct (unrecognized _); [|done]. by intros [= <-].
  - destruct want_lat; intros [= <-] _; (split; [done|]); left; done.
Qed.

End RoundError.

(** ** A line that fails *)

Section LineFails.

Variable style : RoomStyle.

(** When the columns before [j] raise nothing and column [j] raises [e], the
    body of the loop stops on the line with [e]. *)
Lemma load_line_fails total n c lat raw g j e :
  length (rstrip raw) = expected_len style (width g) →
  j ≤ width g →
  (∀ j', j' < j →
     round_error style lat (n + 1) (row_after (height g) c) (rstrip raw)
       (width g) (width g) (height g) j' = None) →
  round_error style lat (n + 1) (row_after (height g) c) (rstrip raw)
    (width g) (width g) (height g) j = Some e →
  ∃ g', load_line style total n c lat raw g = Some (Stop (Some g') (Raised e)).
Proof.
  intros Hlen Hj Hbefore Hat. unfold load_line.
  rewrite Hlen, Nat.eqb_refl. cbn [negb].
  destruct (walk_line_result style lat (south_after (height g) c) (n + 1)
              (row_after (height g) c) (rstrip raw) g Hlen) as (g' & -> & _).
  unfold line_error.
  rewrite (first_error_from_at style lat (n + 1) (row_after (height g) c) (rstrip raw)
             (width g) (width g) (height g) j e); try done; [|lia|].
  - exists g'. done.
  - intros j' Hj'. apply Hbefore. lia.
Qed.

(** A line that stops the loop with an exception: its length is not the
    expected one, or some column raises it, the columns before raising
    nothing. *)
Lemma load_line_raised total n c lat raw g og e :
  load_line style total n c lat raw g = Some (Stop og (Raised e)) →
  (length (rstrip raw) ≠ expected_len style (width g)
   ∧ e = BadLineLen (n + 1) (expected_len style (width g)))
  ∨ (length (rstrip raw) = expected_len style (width g)
     ∧ ∃ j, j ≤ width g
          ∧ (∀ j', j' < j →
               round_error style lat (n + 1) (row_after (height g) c) (rstrip raw)
                 (width g) (width g) (height g) j' = None)
          ∧ round_error style lat (n + 1) (row_after (height g) c) (rstrip raw)
              (width g) (width g) (height g) j = Some e).
Proof.
  unfold load_line.
  destruct (Nat.eqb_spec (length (rstrip raw)) (expected_len style (width g)))
    as [Hlen|Hlen]; cbn [negb].
  - destruct (walk_line_result style lat (south_after (height g) c) (n + 1)
                (row_after (height g) c) (rstrip raw) g Hlen) as (g' & -> & _).
    cbn [mbind option_bind].
    destruct (line_error _ _ _ _ _ _ _ _) as [e'|] eqn:Herr.
    + intros [= _ ->]. right. split; [done|].
      apply first_error_from_inv in Herr as (j & Hj & Hbefore & Hat).
      exists j. split; [lia|]. split; [|done].
      intros j' Hj'. apply Hbefore. lia.
    + by destruct (n + 1 =? total).
  - intros [= _ <-]. by left.
Qed.

End LineFails.

(** ** A load that raises *)

Section LoadFails.

Variable style : RoomStyle.

(** A loop that ends with an exception has stopped at some line, the lines
    before it having gone through. *)
Lemma parse_lines_raised total ls : ∀ grid st og e,
  parse_lines style total grid st ls = Some (og, Raised e) →
  ∃ n raw st' grid',
    run_lines style total grid st (take n ls) = Some (Next st' grid')
    ∧ ls !! n = Some raw
    ∧ parse_line style total grid' st' raw = Some (Stop og (Raised e)).
Proof.
  induction ls as [|raw rest IH]; intros grid st og e Hparse; [done|].
  cbn [parse_lines] in Hparse.
  destruct (parse_line style total grid st raw) as [[st1 grid1|grid1 out]|] eqn:Hline;
    cbn [mbind option_bind] in Hparse; [| |done].
  - apply IH in Hparse as (n & raw' & st' & grid' & Hrun & Hraw & Hstop).
    exists (S n), raw', st', grid'. cbn [take run_lines lookup list_lookup].
    rewrite Hline. cbn [mbind option_bind]. done.
  - injection Hparse as -> ->. exists 0, raw, st, grid. done.
Qed.

(** The header never stops the loop. *)
Lemma header_goes_through total grid lines n raw :
  n < length (header lines) →
  lines !! n = Some raw →
  run_lines style total grid (header_state 0) (take n lines)
  = Some (Next (header_state n) grid)
  ∧ skippable raw = true.
Proof.
  intros Hn Hraw.
  pose proof (header_skippable lines) as Hall.
  rewrite (lines_header_grid lines) in Hraw |- *.
  rewrite lookup_app_l in Hraw by done.
  rewrite take_app_le by lia. split.
  - rewrite run_lines_header.
    + rewrite length_take_le by lia. done.
    + rewrite <- (take_drop n (header lines)) in Hall.
      rewrite forallb_app in Hall. by apply andb_prop in Hall as [-> _].
  - rewrite forallb_forall in Hall. apply Hall.
    apply list_elem_of_In, list_elem_of_lookup. eauto.
Qed.

(** A load that raises has stopped at a grid line, which the body of the
    loop has treated as [load_line] says for its phase. *)
Lemma load_raised map_str g0 og e :
  grid_wf g0 →
  parse_map style map_str (Some g0) = Some (og, Raised e) →
  ∃ n raw gn,
    splitlines map_str !! n = Some raw
    ∧ length (header (splitlines map_str)) ≤ n
    ∧ grid_wf gn ∧ width gn = width g0 ∧ height gn = height g0
    ∧ load_line style (length (splitlines map_str)) n
        (phase (n - length (header (splitlines map_str)))).1
        (phase (n - length (header (splitlines map_str)))).2 raw gn
      = Some (Stop og (Raised e)).
Proof.
  intros Hwf Hparse. unfold parse_map in Hparse.
  apply parse_lines_raised in Hparse as (n & raw & st & grid' & Hrun & Hraw & Hstop).
  destruct (Nat.lt_ge_cases n (length (header (splitlines map_str)))) as [Hn|Hn].
  - destruct (header_goes_through (length (splitlines map_str)) (Some g0)
                (splitlines map_str) n raw Hn Hraw) as [Hrun' Hskip].
    change init_state with (header_state 0) in Hrun. rewrite Hrun' in Hrun.
    injection Hrun as <- <-. by rewrite parse_line_skip in Hstop.
  - destruct (reach_line style map_str g0 n st grid' raw Hwf Hrun Hraw Hn)
      as (gn & -> & Hwfn & Hw & Hh & Hline).
    exists n, raw, gn. rewrite <- Hline. done.
Qed.

(** When the lines before line [n] have gone through, line [n] is a grid
    line of the expected length, and its first column to raise is column
    [j], raising [e], the load raises [e]. *)
Lemma load_fails_at map_str g0 n st gn raw j e :
  grid_wf g0 →
  run_lines style (length (splitlines map_str)) (Some g0) init_state
    (take n (splitlines map_str)) = Some (Next st (Some gn)) →
  splitlines map_str !! n = Some raw →
  length (header (splitlines map_str)) ≤ n →
  length (rstrip raw) = expected_len style (width g0) →
  j ≤ width g0 →
  (∀ j', j' < j →
     round_error style (phase (n - length (header (splitlines map_str)))).2 (n + 1)
       (row_after (height g0) (phase (n - length (header (splitlines map_str)))).1)
       (rstrip raw) (width g0) (width g0) (height g0) j' = None) →
  round_error style (phase (n - length (header (splitlines map_str)))).2 (n + 1)
    (row_after (height g0) (phase (n - length (header (splitlines map_str)))).1)
    (rstrip raw) (width g0) (width g0) (height g0) j = Some e →
  ∃ g', parse_map style map_str (Some g0) = Some (Some g', Raised e).
Proof.
  intros Hwf Hrun Hraw Hn Hlen Hj Hbefore Hat.
  destruct (reach_line style map_str g0 n st (Some gn) raw Hwf Hrun Hraw Hn)
    as (gn' & [= <-] & Hwfn & Hw & Hh & Hline).
  rewrite <- Hw, <- Hh in *.
  destruct (load_line_fails style (length (splitlines map_str)) n _ _ raw gn j e
              Hlen Hj Hbefore Hat) as (g' & Hstop).
  exists g'. eapply stop_at_line; [done|done|]. by rewrite Hline.
Qed.

End LoadFails.

(** ** A load always ends *)

Section LoadTotal.

Variable style : RoomStyle.

(** The loop of a load ends: with the grid it was given, changed, and with
    [None] returned or an exception raised. *)
Lemma load_lines_total total ls : ∀ n t g,
  grid_wf g →
  ∃ g' out,
    parse_lines style total (Some g)
      (load_state style (width g) (height g) n (phase t).1 (phase t).2) ls
    = Some (Some g', out)
    ∧ (out = Returned None ∨ ∃ e, out = Raised e).
Proof.
  induction ls as [|raw rest IH]; intros n t g Hwf.
  - exists g, (Returned None). split; [done|]. by left.
  - cbn [parse_lines]. rewrite parse_line_load. unfold load_line.
    destruct (Nat.eqb_spec (length (rstrip raw)) (expected_len style (width g)))
      as [Hlen|Hlen]; cbn [negb].
    + destruct (walk_line_result style (phase t).2 (south_after (height g) (phase t).1)
                  (n + 1) (row_after (height g) (phase t).1) (rstrip raw) g Hlen)
        as (g1 & -> & Hw & Hh & Hwf1).
      cbn [mbind option_bind].
      destruct (line_error _ _ _ _ _ _ _ _) as [e|].
      * exists g1, (Raised e). split; [done|]. right. by exists e.
      * destruct (n + 1 =? total).
        -- exists g1, (Returned None). split; [done|]. by left.
        -- cbn [mbind option_bind]. rewrite <- Hw, <- Hh.
           change (phase_next ((phase t).1, (phase t).2)) with (phase (S t)).
           apply IH. by apply Hwf1.
    + cbn [mbind option_bind]. eexists _, _. split; [done|]. right. by eexists.
Qed.

Lemma load_total map_str g0 :
  grid_wf g0 →
  ∃ g' out,
    parse_map style map_str (Some g0) = Some (Some g', out)
    ∧ (out = Returned None ∨ ∃ e, out = Raised e).
Proof.
  intros Hwf. rewrite parse_map_load.
  change 0 with (phase 0).1 at 1. change true with (phase 0).2.
  by apply load_lines_total.
Qed.

(** A grid line of another length than the expected one makes the load
    raise, at that line or before. *)
Lemma wrong_length_fails map_str g0 i raw :
  grid_wf g0 →
  grid_lines (splitlines map_str) !! i = Some raw →
  length (rstrip raw) ≠ expected_len style (width g0) →
  ∃ g' e, parse_map style map_str (Some g0) = Some (Some g', Raised e).
Proof.
  intros Hwf Hi Hlen.
  destruct (load_total map_str g0 Hwf) as (g' & out & Hparse & [-> | [e ->]]).
  - destruct (load_success_lines style map_str g0 g' Hwf Hparse) as (_ & _ & Hlines).
    destruct (Hlines i raw Hi) as (? & ? & _ & _ & _ & Hlen' & _). done.
  - by exists g', e.
Qed.

End LoadTotal.

(** ** The bottom boundary *)

Section Bottom.

Variable style : RoomStyle.

(** A lateral line at the bottom boundary sets no North door. *)
Lemma bottom_line_keeps_north line_num grid_row line g g' x :
  length line = sep_pos style (width g) + 1 →
  grid_wf g →
  walk_line style true true line_num grid_row line g = Some (g', None) →
  in_bounds g x →
  door_set North g' x = door_set North g x.
Proof.
  intros Hlen Hwf Hwalk Hx.
  destruct (walk_line_ok style _ _ _ _ _ g Hlen g' Hwf Hwalk)
    as (_ & _ & _ & _ & _ & Hrooms).
  unfold door_set. rewrite Hrooms by done.
  destruct (get_room g x) as [rm|]; [|done]. cbn [fmap option_fmap option_map].
  unfold line_effect, effect_from, east_effect, col_effect, seg_effect, lat_effect,
    west_effect. cbn [compose negb andb].
  repeat case_bool_decide; reflexivity.
Qed.

End Bottom.

(** ** Measure-only mode: the stated properties *)

(** C1: in measure-only mode, once the leading blank and comment lines are
    skipped, the answer is computed from the trimmed length [L] of the first
    grid line and the number [R] of lines after it alone: when
    [L mod (wall_len + 1) = 1] and [R] is even the call returns
    [((L - 1) / (wall_len + 1), R / 2)]; a first grid line of length 19 with a
    wall segment length of 5 and 4 lines after it gives [(3, 2)]. *)
Theorem measure_dimensions style map_str hdr first rest :
  splitlines map_str = hdr ++ first :: rest →
  forallb skippable hdr = true →
  skippable first = false →
  length (rstrip first) mod (wall_len style + 1) = 1 →
  length rest mod 2 = 0 →
  parse_map style map_str None
  = Some (None, Returned (Some ((length (rstrip first) - 1) / (wall_len style + 1),
                                length rest / 2)))
  ∧ (wall_len style = 5 → length (rstrip first) = 19 → length rest = 4 →
     parse_map style map_str None = Some (None, Returned (Some (3, 2)))).
Proof.
  intros Hsplit Hhdr Hfirst HL HR.
  assert (parse_map style map_str None
    = Some (None, Returned (Some ((length (rstrip first) - 1) / (wall_len style + 1),
                                  length rest / 2)))) as Hres.
  { rewrite (measure_first_grid_line style map_str hdr first rest) by done.
    unfold measure_answer.
    replace (length hdr + 1 + length rest - (length hdr + 1)) with (length rest) by lia.
    rewrite HL, HR. reflexivity. }
  split; [exact Hres|].
  intros Hw H19 H4. rewrite Hres, Hw, H19, H4. reflexivity.
Qed.

Lemma measure_dimensions_witness :
  parse_map default_style canned1 None = Some (None, Returned (Some (3, 2))).
Proof.
  refine (proj2 (measure_dimensions default_style canned1
            [str "# This is my dungeon"]
            (str "+-----+-----+-----+")
            [str "| i   |     =     |"; str "+--H--+--H--+--H--+";
             str "|     =     | O   |"; str "+-----+-----+-----+"]
            _ _ _ _ _) _ _ _); reflexivity.
Defined.

(** C10: in measure-only mode an input made of blank and comment lines only,
    the empty string included, makes [parse_map] return [None]: no pair of
    dimensions and no exception. *)
Theorem measure_header_only_returns_none style map_str :
  forallb skippable (splitlines map_str) = true →
  parse_map style map_str None = Some (None, Returned None)
  ∧ parse_map style [] None = Some (None, Returned None).
Proof.
  intros Hall. split; [by apply measure_header_only|reflexivity].
Qed.

Lemma measure_header_only_returns_none_witness :
  parse_map default_style comments_only None = Some (None, Returned None).
Proof.
  refine (proj1 (measure_header_only_returns_none default_style comments_only _)).
  reflexivity.
Defined.

(** C8, as stated, fails: the exception for an odd number of remaining lines
    holds that number and no line number.  Here the first grid line is
    line 3 and one line follows it; the same exception comes out when the
    first grid line is line 1. *)
Lemma measure_odd_count_error_has_no_line_number :
  parse_map default_style odd_count_map None = Some (None, Raised (BadLineCount 1))
  ∧ err_line (BadLineCount 1) = None
  ∧ message default_style (BadLineCount 1)
    = Some "expected line count 2*N+1, got 1"%string
  ∧ parse_map default_style (str ("+-----+" +:+ lf +:+ "|     |")) None
    = Some (None, Raised (BadLineCount 1)).
Proof. repeat split; reflexivity. Qed.

(** C8, amended: in measure-only mode the call raises exactly when the input
    has a first grid line and either its trimmed length [L] is not 1 modulo
    [wall_len + 1], or [L] is and the number [R] of lines after it is odd.
    The first exception carries the 1-indexed number of that line; the second
    carries [R] and no line number. *)
Theorem measure_failures style map_str e :
  parse_map style map_str None = Some (None, Raised e)
  ↔ ∃ hdr first rest,
      splitlines map_str = hdr ++ first :: rest
      ∧ forallb skippable hdr = true
      ∧ skippable first = false
      ∧ ((length (rstrip first) mod (wall_len style + 1) ≠ 1
          ∧ e = BadFirstLineLen (length hdr + 1) (wall_len style) (length (rstrip first))
          ∧ err_line e = Some (length hdr + 1))
         ∨ (length (rstrip first) mod (wall_len style + 1) = 1
            ∧ length rest mod 2 ≠ 0
            ∧ e = BadLineCount (length rest)
            ∧ err_line e = None)).
Proof.
  split.
  - intros Hraise.
    destruct (header_split (splitlines map_str))
      as [Hall | (hdr & first & rest & Hsplit & Hhdr & Hfirst)].
    + rewrite measure_header_only in Hraise by done. discriminate.
    + exists hdr, first, rest. repeat split; try done.
      rewrite (measure_first_grid_line style map_str hdr first rest) in Hraise by done.
      unfold measure_answer in Hraise.
      replace (length hdr + 1 + length rest - (length hdr + 1)) with (length rest)
        in Hraise by lia.
      destruct (Nat.eqb_spec (length (rstrip first) mod (wall_len style + 1)) 1) as [HL|HL];
        cbn [negb] in Hraise.
      * right. destruct (Nat.eqb_spec (length rest mod 2) 0) as [HR|HR];
          cbn [negb] in Hraise; [discriminate|].
        injection Hraise as <-. done.
      * left. injection Hraise as <-. done.
  - intros (hdr & first & rest & Hsplit & Hhdr & Hfirst & Hcase).
    rewrite (measure_first_grid_line style map_str hdr first rest) by done.
    unfold measure_answer.
    replace (length hdr + 1 + length rest - (length hdr + 1)) with (length rest) by lia.
    destruct Hcase as [(HL & -> & _) | (HL & HR & -> & _)].
    + apply Nat.eqb_neq in HL. by rewrite HL.
    + apply Nat.eqb_neq in HR. rewrite HL, HR. reflexivity.
Qed.

(** ** Full-load mode: the doors *)

Section DoorClaims.

Variable style : RoomStyle.

(** What a line of a load that returns leaves in the final grid: a door
    flag that the line's effect sets on a room of its row is set at the end. *)
Lemma load_line_door d map_str g0 gf i raw x :
  grid_wf g0 →
  parse_map style map_str (Some g0) = Some (Some gf, Returned None) →
  grid_lines (splitlines map_str) !! i = Some raw →
  in_bounds g0 x →
  (∀ rm, has_door d
           (line_effect style (phase i).2 (south_after (height g0) (phase i).1)
              (row_after (height g0) (phase i).1) (rstrip raw) (width g0) x rm) = true) →
  door_set d gf x = true.
Proof.
  intros Hwf Hparse Hi Hx Heff.
  destruct (load_success_lines style map_str g0 gf Hwf Hparse) as (_ & _ & Hlines).
  destruct (Hlines i raw Hi) as (gi & gi' & Hev & Hwfi & Hev' & Hlen & Hwalk).
  destruct Hev as (Hw & Hh & Hrooms).
  rewrite <- Hw, <- Hh in *.
  assert (in_bounds gi x) as Hxi by (unfold in_bounds in *; by rewrite Hw, Hh).
  destruct (walk_line_ok style _ _ _ _ _ gi Hlen gi' Hwfi Hwalk)
    as (Hw' & Hh' & Hwfi' & _ & _ & Hrooms').
  apply (evolves_door d gi'); [done|done| |].
  { unfold in_bounds in *. by rewrite Hw', Hh'. }
  unfold door_set. rewrite Hrooms' by done.
  destruct (get_room_is_Some gi x Hwfi Hxi) as [rm ->]. cbn. apply Heff.
Qed.

(** In a load that returns, a line with a column in it is a line of a
    grid with a row in it. *)
Lemma load_line_row map_str g0 gf i raw :
  grid_wf g0 →
  parse_map style map_str (Some g0) = Some (Some gf, Returned None) →
  grid_lines (splitlines map_str) !! i = Some raw →
  0 < width g0 → 0 < height g0.
Proof.
  intros Hwf Hparse Hi HW.
  destruct (load_success_lines style map_str g0 gf Hwf Hparse) as (_ & _ & Hlines).
  destruct (Hlines i raw Hi) as (gi & gi' & Hev & Hwfi & Hev' & Hlen & Hwalk).
  destruct Hev as (Hw & Hh & Hrooms). rewrite <- Hw, <- Hh in *.
  destruct (walk_line_ok style _ _ _ _ _ gi Hlen gi' Hwfi Hwalk)
    as (_ & _ & _ & _ & Hcols & _).
  destruct (Hcols 0) as [Hrow _]; [lia|]. lia.
Qed.

(** A north-door segment of a lateral line before the bottom boundary sets
    North on the room below it. *)
Lemma north_door_below map_str g0 gf m raw j :
  grid_wf g0 →
  parse_map style map_str (Some g0) = Some (Some gf, Returned None) →
  grid_lines (splitlines map_str) !! (2 * m) = Some raw →
  j < width g0 → m < height g0 →
  segment style (rstrip raw) j = door_n style →
  door_set North gf (j, m) = true.
Proof.
  intros Hwf Hparse Hraw Hj Hm Hseg.
  destruct (phase_double m) as [Hphase _].
  apply (load_line_door North map_str g0 gf (2 * m) raw); try done.
  intros rm. rewrite Hphase. cbn [fst snd].
  replace (south_after (height g0) m) with false
    by (unfold south_after; destruct (Nat.leb_spec (height g0) m); [lia|];
        by rewrite andb_false_r).
  replace (row_after (height g0) m) with m by (unfold row_after; lia).
  by apply line_effect_north.
Qed.

(** A south-door segment of a lateral line at the bottom boundary sets South
    on the room above it, in the last row. *)
Lemma south_door_bottom map_str g0 gf m raw j :
  grid_wf g0 →
  parse_map style map_str (Some g0) = Some (Some gf, Returned None) →
  grid_lines (splitlines map_str) !! (2 * m) = Some raw →
  j < width g0 → height g0 ≤ m →
  segment style (rstrip raw) j = door_s style →
  door_set South gf (j, height g0 - 1) = true.
Proof.
  intros Hwf Hparse Hraw Hj Hm Hseg.
  pose proof (load_line_row map_str g0 gf _ raw Hwf Hparse Hraw ltac:(lia)) as HH.
  destruct (phase_double m) as [Hphase _].
  apply (load_line_door South map_str g0 gf (2 * m) raw); try done.
  { split; cbn; lia. }
  intros rm. rewrite Hphase. cbn [fst snd].
  replace (south_after (height g0) m) with true.
  2:{ unfold south_after. destruct (Nat.leb_spec (height g0) m); [|lia].
      destruct (Nat.leb_spec 1 m); [done|lia]. }
  replace (row_after (height g0) m) with (height g0 - 1) by (unfold row_after; lia).
  by apply line_effect_south.
Qed.

(** A west-door separator of a content line sets West on the room after
    it, and an east-door last separator sets East on the last room. *)
Lemma west_door_of_room map_str g0 gf m raw j :
  grid_wf g0 →
  parse_map style map_str (Some g0) = Some (Some gf, Returned None) →
  grid_lines (splitlines map_str) !! (2 * m + 1) = Some raw →
  m < height g0 → j < width g0 →
  rstrip raw !! sep_pos style j = Some (door_w style) →
  door_set West gf (j, m) = true.
Proof.
  intros Hwf Hparse Hraw Hm Hj Hsep.
  destruct (phase_double m) as [_ Hphase].
  assert (row_after (height g0) m = m) as Hrow by (unfold row_after; lia).
  apply (load_line_door West map_str g0 gf (2 * m + 1) raw); try done.
  intros rm. rewrite Hphase. cbn [fst snd]. rewrite Hrow.
  apply line_effect_west; try done. by apply sep_char_lookup.
Qed.

Lemma east_door_last_room map_str g0 gf m raw :
  grid_wf g0 →
  parse_map style map_str (Some g0) = Some (Some gf, Returned None) →
  grid_lines (splitlines map_str) !! (2 * m + 1) = Some raw →
  m < height g0 → 0 < width g0 →
  rstrip raw !! sep_pos style (width g0) = Some (door_e style) →
  door_set East gf (width g0 - 1, m) = true.
Proof.
  intros Hwf Hparse Hraw Hm HW Hsep.
  destruct (phase_double m) as [_ Hphase].
  assert (row_after (height g0) m = m) as Hrow by (unfold row_after; lia).
  apply (load_line_door East map_str g0 gf (2 * m + 1) raw); try done.
  { split; cbn; lia. }
  intros rm. rewrite Hphase. cbn [fst snd]. rewrite Hrow.
  apply line_effect_east; try done; [cbn; lia|]. by apply sep_char_lookup.
Qed.

(** C2: in a load that returns, a segment of a lateral line before the
    bottom boundary (the grid line of index [2 * m] with [m] below the
    height) that equals the north-door glyph sets the North door of the room
    of that column in the row below the line, row [m]; on a lateral line at
    the bottom boundary ([m] from the height on, where [south_edge] is true) a
    segment that equals the south-door glyph sets the South door of the room
    of that column in the last row, the row above, and the walk of such a
    line sets no North door. *)
Theorem lateral_line_doors map_str g0 gf m raw j :
  grid_wf g0 →
  parse_map style map_str (Some g0) = Some (Some gf, Returned None) →
  grid_lines (splitlines map_str) !! (2 * m) = Some raw →
  j < width g0 →
  (m < height g0 →
   segment style (rstrip raw) j = door_n style →
   door_set North gf (j, m) = true)
  ∧ (height g0 ≤ m →
     segment style (rstrip raw) j = door_s style →
     door_set South gf (j, height g0 - 1) = true)
  ∧ (∀ line_num grid_row line g g' x,
       length line = sep_pos style (width g) + 1 →
       grid_wf g →
       walk_line style true true line_num grid_row line g = Some (g', None) →
       in_bounds g x →
       door_set North g' x = door_set North g x).
Proof.
  intros Hwf Hparse Hraw Hj. split; [|split].
  - intros Hm Hseg. by apply (north_door_below map_str g0 gf m raw j).
  - intros Hm Hseg. by apply (south_door_bottom map_str g0 gf m raw j).
  - intros line_num grid_row line g g' x. apply bottom_line_keeps_north.
Qed.

(** C5: in a load that returns, on a content line (the grid line of index
    [2 * m + 1], row [m]) a separator that equals the west-door glyph, just
    before the cell of a room, sets the West door of that room, and the last
    separator of the line, when it equals the east-door glyph, sets the East
    door of the last room of the row. *)
Theorem content_line_doors map_str g0 gf m raw :
  grid_wf g0 →
  parse_map style map_str (Some g0) = Some (Some gf, Returned None) →
  grid_lines (splitlines map_str) !! (2 * m + 1) = Some raw →
  m < height g0 →
  (∀ j, j < width g0 →
     rstrip raw !! sep_pos style j = Some (door_w style) →
     door_set West gf (j, m) = true)
  ∧ (0 < width g0 →
     rstrip raw !! sep_pos style (width g0) = Some (door_e style) →
     door_set East gf (width g0 - 1, m) = true).
Proof.
  intros Hwf Hparse Hraw Hm. split.
  - intros j Hj Hsep. by apply (west_door_of_room map_str g0 gf m raw j).
  - intros HW Hsep. by apply (east_door_last_room map_str g0 gf m raw).
Qed.

(** C3, amended: in a load that returns, a north-door segment between two
    rows sets the North door of the room below it, and a west-door glyph
    between two columns sets the West door of the room to its east; the
    South flag of a room above the last row and the East flag of a room
    before the last column are left as the grid had them, so the door is
    recorded on one of the two rooms only.  South is set from the bottom
    boundary alone and East from the last separator of a content line alone. *)
Theorem interior_doors_one_side map_str g0 gf :
  grid_wf g0 →
  parse_map style map_str (Some g0) = Some (Some gf, Returned None) →
  (∀ m j raw,
     grid_lines (splitlines map_str) !! (2 * m) = Some raw →
     0 < m < height g0 → j < width g0 →
     segment style (rstrip raw) j = door_n style →
     door_set North gf (j, m) = true
     ∧ door_set South gf (j, m - 1) = door_set South g0 (j, m - 1))
  ∧ (∀ m j raw,
       grid_lines (splitlines map_str) !! (2 * m + 1) = Some raw →
       m < height g0 → 0 < j < width g0 →
       rstrip raw !! sep_pos style j = Some (door_w style) →
       door_set West gf (j, m) = true
       ∧ door_set East gf (j - 1, m) = door_set East g0 (j - 1, m))
  ∧ (∀ x, in_bounds g0 x →
       (x.2 + 1 < height g0 → door_set South gf x = door_set South g0 x)
       ∧ (x.1 + 1 < width g0 → door_set East gf x = door_set East g0 x)).
Proof.
  intros Hwf Hparse.
  assert (∀ x, in_bounds g0 x →
       (x.2 + 1 < height g0 → door_set South gf x = door_set South g0 x)
       ∧ (x.1 + 1 < width g0 → door_set East gf x = door_set East g0 x)) as Hframe.
  { intros x Hx.
    destruct (load_success_lines style map_str g0 gf Hwf Hparse) as ((_ & _ & Hrooms) & _).
    destruct (get_room_is_Some g0 x Hwf Hx) as [rm Hrm].
    destruct (Hrooms x rm Hx Hrm) as (rm' & Hrm' & _ & Hs & He).
    unfold door_set. rewrite Hrm, Hrm'. cbn [has_door]. auto. }
  split; [|split; [|done]].
  - intros m j raw Hraw Hm Hj Hseg. split.
    + apply (north_door_below map_str g0 gf m raw j); try done. lia.
    + apply Hframe; [split; cbn; lia|cbn; lia].
  - intros m j raw Hraw Hm Hj Hsep. split.
    + apply (west_door_of_room map_str g0 gf m raw j); try done. lia.
    + apply Hframe; [split; cbn; lia|cbn; lia].
Qed.

End DoorClaims.

Lemma lateral_line_doors_witness :
  door_set North doors_grid (1, 1) = true.
Proof.
  refine (proj1 (lateral_line_doors default_style doors_map (new_grid 3 3) doors_grid
                   1 (str "+-----+--H--+-----+") 1 _ _ _ _) _ _);
    try reflexivity; cbn; lia.
Defined.

Lemma content_line_doors_witness :
  door_set East doors_grid (2, 2) = true.
Proof.
  refine (proj2 (content_line_doors default_style doors_map (new_grid 3 3) doors_grid
                   2 (str "|     |     | O   =") _ _ _ _) _ _);
    try reflexivity; cbn; lia.
Defined.

(** C3, as stated, fails: in [doors_map] the north-door segment above room
    (1,1) sets North on that room and leaves South unset on room (1,0) above
    it, and the door glyph to the west of room (1,1) sets West on that room
    and leaves East unset on room (0,1). *)
Lemma interior_door_sets_one_room_only :
  parse_map default_style doors_map (Some (new_grid 3 3))
  = Some (Some doors_grid, Returned None)
  ∧ door_set North doors_grid (1, 1) = true
  ∧ door_set South doors_grid (1, 0) = false
  ∧ door_set West doors_grid (1, 1) = true
  ∧ door_set East doors_grid (0, 1) = false.
Proof. repeat split; reflexivity. Qed.

Lemma interior_doors_one_side_witness :
  door_set North doors_grid (1, 1) = true
  ∧ door_set South doors_grid (1, 0) = door_set South (new_grid 3 3) (1, 0).
Proof.
  refine (proj1 (interior_doors_one_side default_style doors_map (new_grid 3 3) doors_grid
                   _ _) 1 1 (str "+-----+--H--+-----+") _ _ _ _);
    try reflexivity; cbn; lia.
Defined.

(** ** Full-load mode: the content cells *)

Section CellClaims.

Variable style : RoomStyle.

Lemma add_door_contents d rm :
  is_entrance (add_door d rm) = is_entrance rm
  ∧ is_exit (add_door d rm) = is_exit rm
  ∧ has_pit (add_door d rm) = has_pit rm
  ∧ healing_potions (add_door d rm) = healing_potions rm
  ∧ vision_potions (add_door d rm) = vision_potions rm
  ∧ pillar (add_door d rm) = pillar rm.
Proof. by destruct d. Qed.

Lemma glyph_cases c f :
  glyph c = Some f →
  (c = "i" ∧ f = set_entrance) ∨ (c = "O" ∧ f = set_exit) ∨ (c = "X" ∧ f = set_pit)
  ∨ (c = "H" ∧ f = add_healing) ∨ (c = "V" ∧ f = add_vision)
  ∨ ((c = "A" ∨ c = "E" ∨ c = "I" ∨ c = "P") ∧ f = set_pillar c).
Proof.
  unfold glyph.
  destruct (Ascii.eqb_spec c "i") as [->|_]; [intros [= <-]; naive_solver|].
  destruct (Ascii.eqb_spec c "O") as [->|_]; [intros [= <-]; naive_solver|].
  destruct (Ascii.eqb_spec c "X") as [->|_]; [intros [= <-]; naive_solver|].
  destruct (Ascii.eqb_spec c "H") as [->|_]; [intros [= <-]; naive_solver|].
  destruct (Ascii.eqb_spec c "V") as [->|_]; [intros [= <-]; naive_solver|].
  destruct (is_pillar c) eqn:Hp; [|discriminate]. intros [= <-].
  unfold is_pillar in Hp. apply bool_decide_eq_true in Hp.
  do 5 right. split; [|done].
  repeat (apply elem_of_cons in Hp as [->|Hp]; [auto|]). by apply elem_of_nil in Hp.
Qed.

Lemma contents_effect_fields cs : ∀ rm,
  unrecognized cs = None → cell_fields cs rm (contents_effect cs rm).
Proof.
  unfold cell_fields.
  induction cs as [|c cs IH]; intros rm Hrec.
  - cbn. rewrite !orb_false_r, !Nat.add_0_r. done.
  - cbn [unrecognized contents_effect] in *.
    destruct (glyph c) as [f|] eqn:Hg; [|discriminate].
    destruct (IH (f rm) Hrec) as (H1 & H2 & H3 & H4 & H5 & H6).
    rewrite H1, H2, H3, H4, H5, H6. clear H1 H2 H3 H4 H5 H6 IH.
    assert (∀ (b x : bool), true || x = b || (true || x)) as Hor
      by (intros [] []; reflexivity).
    assert (∀ p : ascii, match last_pillar cs with Some q => Some q | None => Some p end
              = match last (p :: List.filter is_pillar cs) with
                | Some q => Some q | None => pillar rm end) as Hlast.
    { intros p. rewrite last_cons. unfold last_pillar. by destruct (last _). }
    unfold count_glyph.
    apply glyph_cases in Hg
      as [[-> ->]|[[-> ->]|[[-> ->]|[[-> ->]|[[-> ->]|[[->|[->|[->| ->]]] ->]]]]]];
      cbn; repeat split; try done; try apply Hor; try lia; try apply Hlast.
Qed.

(** C4: on a content line that goes through, the cell of each room is
    trimmed and its characters are taken one by one: the entrance, exit and
    pit markers set their flag, each healing-potion and each vision-potion
    marker adds one to its counter, and the last pillar glyph among A, E, I
    and P becomes the pillar.  A cell ["HH"] adds 2 healing potions; a cell
    ["XV"] sets the pit and adds 1 vision potion. *)
Theorem content_cell south_edge line_num grid_row line g g' j rm :
  length line = sep_pos style (width g) + 1 →
  grid_wf g →
  walk_line style false south_edge line_num grid_row line g = Some (g', None) →
  j < width g →
  get_room g (j, grid_row) = Some rm →
  ∃ rm',
    get_room g' (j, grid_row) = Some rm'
    ∧ cell style line j = strip (take (wall_len style) (drop (sep_pos style j + 1) line))
    ∧ cell_fields (cell style line j) rm rm'
    ∧ (cell style line j = str "HH" →
       healing_potions rm' = healing_potions rm + 2)
    ∧ (cell style line j = str "XV" →
       has_pit rm' = true ∧ vision_potions rm' = vision_potions rm + 1).
Proof.
  intros Hlen Hwf Hwalk Hj Hrm.
  destruct (walk_line_ok style _ _ _ _ _ g Hlen g' Hwf Hwalk)
    as (_ & _ & _ & _ & Hcols & Hrooms).
  destruct (Hcols j Hj) as [Hrow Hcell]. unfold col_accepted in Hcell.
  rewrite Hrooms, Hrm by done. cbn [fmap option_fmap option_map].
  eexists. split; [done|]. split; [done|].
  assert (cell_fields (cell style line j) rm
            (line_effect style false south_edge grid_row line (width g) (j, grid_row) rm))
    as Hfields.
  { unfold line_effect, effect_from. cbn [compose fst snd].
    rewrite (bool_decide_eq_true_2 (grid_row = grid_row ∧ 0 ≤ j < width g))
      by (split; [done|lia]).
    unfold col_effect, seg_effect. cbn [compose]. fold (cell style line j).
    pose proof (contents_effect_fields (cell style line j)
                  (west_effect style false (sep_char style line j) rm) Hcell) as Hc.
    assert (∀ rm1 rm2, cell_fields (cell style line j) rm1 rm2 →
              ∀ d, cell_fields (cell style line j) rm1 (add_door d rm2)) as Hafter.
    { intros rm1 rm2 Hf d. unfold cell_fields in *.
      destruct (add_door_contents d rm2) as (-> & -> & -> & -> & -> & ->). done. }
    assert (cell_fields (cell style line j) rm
              (contents_effect (cell style line j)
                 (west_effect style false (sep_char style line j) rm))) as Hc'.
    { unfold west_effect in *. case_match; [|done].
      unfold cell_fields in *.
      destruct (add_door_contents West rm) as (E1 & E2 & E3 & E4 & E5 & E6).
      by rewrite E1, E2, E3, E4, E5, E6 in Hc. }
    case_bool_decide; [|done]. unfold east_effect. case_match; [|done].
    by apply Hafter. }
  split; [done|]. destruct Hfields as (_ & _ & H3 & H4 & H5 & _).
  split.
  - intros Hcs. rewrite Hcs in H4. rewrite H4. reflexivity.
  - intros Hcs. rewrite Hcs in H3, H5. rewrite H3, H5. cbn.
    split; [apply orb_true_r|reflexivity].
Qed.

End CellClaims.

(** ** Full-load mode: the failures *)

Section FailureClaims.

Variable style : RoomStyle.

(** C7: in full-load mode the expected length of a line is
    [width * (wall_len + 1) + 1], set once.  A grid line whose trimmed length
    is another makes the load fail; and when the parser gets to that line
    (the lines before it having gone through) the exception is the one that
    carries the line's 1-indexed number. *)
Theorem line_length_error map_str g0 :
  grid_wf g0 →
  (∀ i raw,
     grid_lines (splitlines map_str) !! i = Some raw →
     length (rstrip raw) ≠ width g0 * (wall_len style + 1) + 1 →
     ∃ g' e, parse_map style map_str (Some g0) = Some (Some g', Raised e))
  ∧ (∀ n st gn raw,
       run_lines style (length (splitlines map_str)) (Some g0) init_state
         (take n (splitlines map_str)) = Some (Next st (Some gn)) →
       splitlines map_str !! n = Some raw →
       length (header (splitlines map_str)) ≤ n →
       length (rstrip raw) ≠ width g0 * (wall_len style + 1) + 1 →
       parse_map style map_str (Some g0)
       = Some (Some gn,
               Raised (BadLineLen (n + 1) (width g0 * (wall_len style + 1) + 1)))
       ∧ err_line (BadLineLen (n + 1) (width g0 * (wall_len style + 1) + 1))
         = Some (n + 1)).
Proof.
  intros Hwf. split.
  - intros i raw Hi Hlen. by apply (wrong_length_fails style map_str g0 i raw).
  - intros n st gn raw Hrun Hraw Hn Hlen. split; [|done].
    destruct (reach_line style map_str g0 n st (Some gn) raw Hwf Hrun Hraw Hn)
      as (gn' & [= <-] & Hwfn & Hw & Hh & Hline).
    eapply stop_at_line; [done|done|]. rewrite Hline. unfold load_line.
    unfold expected_len. rewrite Hw.
    destruct (Nat.eqb_spec (length (rstrip raw)) (width g0 * (wall_len style + 1) + 1));
      [done|]. reflexivity.
Qed.

(** C9: in full-load mode, when the parser gets to a content line (the grid
    line of index [2 * m + 1], row [m]) and walks it up to the cell of column
    [j], the first character [c] of that trimmed cell that is not a
    recognized glyph makes the call raise the unrecognized-symbol exception,
    which carries [c] and the coordinate [(j, m)] of the room, and neither a
    line number nor a column. *)
Theorem unrecognized_symbol map_str g0 n st gn raw m j c :
  grid_wf g0 →
  run_lines style (length (splitlines map_str)) (Some g0) init_state
    (take n (splitlines map_str)) = Some (Next st (Some gn)) →
  splitlines map_str !! n = Some raw →
  n = length (header (splitlines map_str)) + (2 * m + 1) →
  length (rstrip raw) = width g0 * (wall_len style + 1) + 1 →
  m < height g0 → j < width g0 →
  (∀ j', j' ≤ j → sep_accepts style false (sep_char style (rstrip raw) j') = true) →
  (∀ j', j' < j → unrecognized (cell style (rstrip raw) j') = None) →
  unrecognized (cell style (rstrip raw) j) = Some c →
  ∃ g',
    parse_map style map_str (Some g0) = Some (Some g', Raised (Unrecognized c (j, m)))
    ∧ glyph c = None
    ∧ err_room (Unrecognized c (j, m)) = Some (j, m)
    ∧ err_line (Unrecognized c (j, m)) = None
    ∧ err_col (Unrecognized c (j, m)) = None.
Proof.
  intros Hwf Hrun Hraw Hn Hlen Hm Hj Hseps Hcells Hcell.
  assert (glyph c = None) as Hglyph.
  { clear -Hcell. induction (cell style (rstrip raw) j) as [|c' cs IH]; [done|].
    cbn in Hcell. destruct (glyph c') eqn:Hg; [auto|]. by injection Hcell as <-. }
  assert (n - length (header (splitlines map_str)) = 2 * m + 1) as Ht by lia.
  destruct (phase_double m) as [_ Hphase].
  destruct (load_fails_at style map_str g0 n st gn raw j (Unrecognized c (j, m)))
    as (g' & Hparse); try done; try lia.
  - intros j' Hj'. rewrite Ht, Hphase. cbn [fst snd].
    replace (row_after (height g0) m) with m by (unfold row_after; lia).
    apply round_error_ok; [apply Hseps; lia|]. intros _.
    split; [lia|]. split; [done|]. unfold col_accepted. by apply Hcells.
  - rewrite Ht, Hphase. cbn [fst snd].
    replace (row_after (height g0) m) with m by (unfold row_after; lia).
    apply round_error_cell; try done. by apply Hseps.
  - exists g'. done.
Qed.

(** The glyphs that the checks of the walk accept. *)
Lemma accepted_glyphs :
  (∀ c, sep_accepts style true c = true ↔ c = corner style)
  ∧ (∀ c, sep_accepts style false c = true ↔ c = wall_w style ∨ c = door_w style)
  ∧ (∀ seg, seg_accepts style seg = true ↔ seg = wall_n style ∨ seg = door_n style).
Proof.
  unfold sep_accepts, seg_accepts. repeat split.
  - by intros ?%Ascii.eqb_eq.
  - intros ->. apply Ascii.eqb_refl.
  - intros [?%Ascii.eqb_eq|?%Ascii.eqb_eq]%orb_prop; auto.
  - intros [-> | ->]; rewrite Ascii.eqb_refl; [done|apply orb_true_r].
  - intros [?%bool_decide_eq_true|?%bool_decide_eq_true]%orb_prop; auto.
  - intros [-> | ->].
    + by rewrite (bool_decide_eq_true_2 (wall_n style = wall_n style)).
    + rewrite (bool_decide_eq_true_2 (door_n style = door_n style)) by done.
      apply orb_true_r.
Qed.

(** A load that returns has met an accepted glyph at every separator and an
    accepted segment at every column of every lateral line. *)
Lemma load_success_accepted map_str g0 gf i raw :
  grid_wf g0 →
  parse_map style map_str (Some g0) = Some (Some gf, Returned None) →
  grid_lines (splitlines map_str) !! i = Some raw →
  (∀ j, j ≤ width g0 →
     sep_accepts style (phase i).2 (sep_char style (rstrip raw) j) = true)
  ∧ ((phase i).2 = true →
     ∀ j, j < width g0 → seg_accepts style (segment style (rstrip raw) j) = true).
Proof.
  intros Hwf Hparse Hi.
  destruct (load_success_lines style map_str g0 gf Hwf Hparse) as (_ & _ & Hlines).
  destruct (Hlines i raw Hi) as (gi & gi' & (Hw & Hh & _) & Hwfi & _ & Hlen & Hwalk).
  rewrite <- Hw in *.
  destruct (walk_line_ok style _ _ _ _ _ gi Hlen gi' Hwfi Hwalk)
    as (_ & _ & _ & Hseps & Hcols & _).
  split; [done|]. intros Hlat j Hj. destruct (Hcols j Hj) as [_ Hcol].
  unfold col_accepted in Hcol. by rewrite Hlat in Hcol.
Qed.

(** A grammar exception of a load carries the number of a grid line and a
    column of it: that of a separator that is not accepted, or that of a
    segment of a lateral line that is not. *)
Lemma grammar_error_position map_str g0 og e :
  grid_wf g0 →
  parse_map style map_str (Some g0) = Some (og, Raised e) →
  is_grammar_error e = true →
  ∃ n raw j,
    splitlines map_str !! n = Some raw
    ∧ length (header (splitlines map_str)) ≤ n
    ∧ j ≤ width g0
    ∧ err_line e = Some (n + 1)
    ∧ ((err_col e = Some (sep_pos style j)
        ∧ sep_accepts style (phase (n - length (header (splitlines map_str)))).2
            (sep_char style (rstrip raw) j) = false)
       ∨ ((phase (n - length (header (splitlines map_str)))).2 = true
          ∧ j < width g0
          ∧ err_col e = Some (sep_pos style j + 1)
          ∧ seg_accepts style (segment style (rstrip raw) j) = false)).
Proof.
  intros Hwf Hparse Hgram.
  destruct (load_raised style map_str g0 og e Hwf Hparse)
    as (n & raw & gn & Hraw & Hn & Hwfn & Hw & Hh & Hline).
  apply load_line_raised in Hline as [[_ ->]|(Hlen & j & Hj & _ & Hat)]; [done|].
  apply round_error_grammar in Hat as (Hl & Hcase); [|done].
  rewrite Hw in *. exists n, raw, j. repeat split; try done.
  destruct Hcase as [(Hsep & Hcol & _)|(Hlat & HjW & _ & Hseg & Hcol & _)];
    [left|right]; done.
Qed.

(** When the parser gets to a grid line of the expected length whose first
    mismatch is at column [j], the columns before it being accepted, the
    load raises the grammar exception of that place. *)
Lemma mismatch_raises map_str g0 n st gn raw j :
  grid_wf g0 →
  run_lines style (length (splitlines map_str)) (Some g0) init_state
    (take n (splitlines map_str)) = Some (Next st (Some gn)) →
  splitlines map_str !! n = Some raw →
  length (header (splitlines map_str)) ≤ n →
  length (rstrip raw) = width g0 * (wall_len style + 1) + 1 →
  j ≤ width g0 →
  (∀ j', j' < j →
     sep_accepts style (phase (n - length (header (splitlines map_str)))).2
       (sep_char style (rstrip raw) j') = true
     ∧ row_after (height g0) (phase (n - length (header (splitlines map_str)))).1
       < height g0
     ∧ col_accepted style (phase (n - length (header (splitlines map_str)))).2
         (rstrip raw) j') →
  (sep_accepts style (phase (n - length (header (splitlines map_str)))).2
     (sep_char style (rstrip raw) j) = false →
   ∃ g', parse_map style map_str (Some g0)
         = Some (Some g',
                 Raised (if (phase (n - length (header (splitlines map_str)))).2
                         then BadCorner (n + 1) (sep_pos style j)
                                (sep_char style (rstrip raw) j)
                         else BadSeparator (n + 1) (sep_pos style j)
                                (sep_char style (rstrip raw) j))))
  ∧ ((phase (n - length (header (splitlines map_str)))).2 = true →
     sep_accepts style true (sep_char style (rstrip raw) j) = true →
     j < width g0 →
     row_after (height g0) (phase (n - length (header (splitlines map_str)))).1
       < height g0 →
     seg_accepts style (segment style (rstrip raw) j) = false →
     ∃ g', parse_map style map_str (Some g0)
           = Some (Some g',
                   Raised (BadSegment (n + 1) (sep_pos style j + 1)
                             (segment style (rstrip raw) j)))).
Proof.
  intros Hwf Hrun Hraw Hn Hlen Hj Hbefore.
  assert (∀ j', j' < j →
     round_error style (phase (n - length (header (splitlines map_str)))).2 (n + 1)
       (row_after (height g0) (phase (n - length (header (splitlines map_str)))).1)
       (rstrip raw) (width g0) (width g0) (height g0) j' = None) as Hnone.
  { intros j' Hj'. destruct (Hbefore j' Hj') as (Hsep & Hrow & Hcol).
    apply round_error_ok; [done|]. intros _. split; [lia|]. done. }
  split.
  - intros Hsep.
    apply (load_fails_at style map_str g0 n st gn raw j); try done.
    by apply round_error_sep.
  - intros Hlat Hsep HjW Hrow Hseg.
    apply (load_fails_at style map_str g0 n st gn raw j); try done.
    apply round_error_seg; try done. by rewrite Hlat.
Qed.

(** C6, amended: in full-load mode a separator of a lateral line must be the
    corner glyph, a separator of a content line must be the plain-wall or the
    west-door glyph (the east-door glyph passes only where the style makes it
    one of these two), and a segment of a lateral line must be the north-wall
    or the north-door sequence.  A load that returns has met no mismatch; a
    grammar exception carries the 1-indexed number of a grid line and the
    column of a mismatch on it, so no other place raises one; and a first
    mismatch that the parser gets to raises the exception of its place.
    For the grid line of index [i], [(phase i).2] tells whether it is a
    lateral line and [(phase i).1] is the number of content lines before it. *)
Theorem grammar_errors map_str g0 :
  grid_wf g0 →
  ((∀ c, sep_accepts style true c = true ↔ c = corner style)
   ∧ (∀ c, sep_accepts style false c = true ↔ c = wall_w style ∨ c = door_w style)
   ∧ (∀ seg, seg_accepts style seg = true ↔ seg = wall_n style ∨ seg = door_n style))
  ∧ (∀ gf i raw,
       parse_map style map_str (Some g0) = Some (Some gf, Returned None) →
       grid_lines (splitlines map_str) !! i = Some raw →
       (∀ j, j ≤ width g0 →
          sep_accepts style (phase i).2 (sep_char style (rstrip raw) j) = true)
       ∧ ((phase i).2 = true →
          ∀ j, j < width g0 → seg_accepts style (segment style (rstrip raw) j) = true))
  ∧ (∀ og e,
       parse_map style map_str (Some g0) = Some (og, Raised e) →
       is_grammar_error e = true →
       ∃ n raw j,
         splitlines map_str !! n = Some raw
         ∧ length (header (splitlines map_str)) ≤ n
         ∧ j ≤ width g0
         ∧ err_line e = Some (n + 1)
         ∧ ((err_col e = Some (sep_pos style j)
             ∧ sep_accepts style (phase (n - length (header (splitlines map_str)))).2
                 (sep_char style (rstrip raw) j) = false)
            ∨ ((phase (n - length (header (splitlines map_str)))).2 = true
               ∧ j < width g0
               ∧ err_col e = Some (sep_pos style j + 1)
               ∧ seg_accepts style (segment style (rstrip raw) j) = false)))
  ∧ (∀ n st gn raw j,
       run_lines style (length (splitlines map_str)) (Some g0) init_state
         (take n (splitlines map_str)) = Some (Next st (Some gn)) →
       splitlines map_str !! n = Some raw →
       length (header (splitlines map_str)) ≤ n →
       length (rstrip raw) = width g0 * (wall_len style + 1) + 1 →
       j ≤ width g0 →
       (∀ j', j' < j →
          sep_accepts style (phase (n - length (header (splitlines map_str)))).2
            (sep_char style (rstrip raw) j') = true
          ∧ row_after (height g0) (phase (n - length (header (splitlines map_str)))).1
            < height g0
          ∧ col_accepted style (phase (n - length (header (splitlines map_str)))).2
              (rstrip raw) j') →
       (sep_accepts style (phase (n - length (header (splitlines map_str)))).2
          (sep_char style (rstrip raw) j) = false →
        ∃ g', parse_map style map_str (Some g0)
              = Some (Some g',
                      Raised (if (phase (n - length (header (splitlines map_str)))).2
                              then BadCorner (n + 1) (sep_pos style j)
                                     (sep_char style (rstrip raw) j)
                              else BadSeparator (n + 1) (sep_pos style j)
                                     (sep_char style (rstrip raw) j))))
       ∧ ((phase (n - length (header (splitlines map_str)))).2 = true →
          sep_accepts style true (sep_char style (rstrip raw) j) = true →
          j < width g0 →
          row_after (height g0) (phase (n - length (header (splitlines map_str)))).1
            < height g0 →
          seg_accepts style (segment style (rstrip raw) j) = false →
          ∃ g', parse_map style map_str (Some g0)
                = Some (Some g',
                        Raised (BadSegment (n + 1) (sep_pos style j + 1)
                                  (segment style (rstrip raw) j))))).
Proof.
  intros Hwf. split; [apply accepted_glyphs|]. split; [|split].
  - intros gf i raw. by apply load_success_accepted.
  - intros og e. by apply grammar_error_position.
  - intros n st gn raw j. by apply mismatch_raises.
Qed.

End FailureClaims.

(** C6, as stated, fails: with a style whose east-door glyph is a glyph of
    its own, that glyph at the last separator of a content line, where an
    east door is drawn, is refused with a grammar exception. *)
Lemma east_door_glyph_is_refused :
  parse_map bracket_style east_door_map (Some (new_grid 1 1))
  = Some (Some (new_grid 1 1), Raised (BadSeparator 2 6 (door_e bracket_style)))
  ∧ is_grammar_error (BadSeparator 2 6 (door_e bracket_style)) = true
  ∧ message bracket_style (BadSeparator 2 6 (door_e bracket_style))
    = Some "L2C6: expected wall '|' or door '[', got ']'"%string.
Proof. repeat split; reflexivity. Qed.

(** ** The canned dungeons of Maze.py *)

(** The first one measures 3 by 2, as the run of [Maze.py] prints. *)
Example canned1_measure :
  parse_map default_style canned1 None = Some (None, Returned (Some (3, 2))).
Proof. reflexivity. Qed.

(** The second one loads into a 3 by 2 grid: the entrance in room (0,0), the
    exit behind a west door in room (2,0), north doors on rooms (0,1) and
    (1,1), pillar P in room (0,1), a pit and a vision potion behind a west
    door in room (1,1), two healing potions behind a west door in room (2,1). *)
Example canned2_load :
  parse_map default_style canned2 (Some (new_grid 3 2))
  = Some (Some canned2_grid, Returned None)
  ∧ get_room canned2_grid (0, 0) = Some (set_entrance empty_room)
  ∧ get_room canned2_grid (1, 0) = Some empty_room
  ∧ get_room canned2_grid (2, 0) = Some (set_exit (add_door West empty_room))
  ∧ get_room canned2_grid (0, 1) = Some (set_pillar "P" (add_door North empty_room))
  ∧ get_room canned2_grid (1, 1)
    = Some (add_vision (set_pit (add_door West (add_door North empty_room))))
  ∧ get_room canned2_grid (2, 1)
    = Some (add_healing (add_healing (add_door West empty_room))).
Proof. repeat split; reflexivity. Qed.

(** The texts of some exceptions. *)
Example messages :
  message default_style (BadFirstLineLen 2 5 18)
  = Some "L2: expected line len of form 6*N+1, got 18"%string
  ∧ message default_style (BadLineLen 2 7)
    = Some "L2: does not match expected len_len 7"%string
  ∧ message default_style (BadCorner 1 6 "*")
    = Some "L1C6: expected corner '+', got '*'"%string
  ∧ message default_style (BadSegment 3 1 (str "--X--"))
    = Some "L3C1: expected north wall '-----' or door '--H--', but got '--X--'"%string
  ∧ message default_style (Unrecognized "Z" (1, 0))
    = Some "Z in room (1, 0) not recognized"%string.
Proof. repeat split; reflexivity. Qed.

(** ** The properties at work on sample inputs *)

Lemma measure_failures_witness :
  parse_map default_style odd_count_map None = Some (None, Raised (BadLineCount 1)).
Proof.
  apply (proj2 (measure_failures default_style odd_count_map (BadLineCount 1))).
  exists [str "# one room,"; str "# cut short"], (str "+-----+"), [str "|     |"].
  repeat split; try reflexivity. right. repeat split; try reflexivity.
  vm_compute. discriminate.
Defined.

Lemma content_cell_witness :
  ∃ rm', get_room cells_grid (2, 1) = Some rm' ∧ healing_potions rm' = 2.
Proof.
  destruct (content_cell default_style false 5 1 cells_line (new_grid 3 2) cells_grid
              2 empty_room) as (rm' & Hget & _ & _ & Htwo & _);
    try reflexivity; [vm_compute; lia|].
  exists rm'. split; [exact Hget|]. apply Htwo. reflexivity.
Defined.

Lemma line_length_error_witness :
  parse_map default_style short_line_map (Some (new_grid 1 1))
  = Some (Some (new_grid 1 1), Raised (BadLineLen 2 7)).
Proof.
  refine (proj1 (proj2 (line_length_error default_style short_line_map (new_grid 1 1) _)
                   1 (load_state default_style 1 1 1 0 false) (new_grid 1 1)
                   (str "|    |") _ _ _ _)); try reflexivity; vm_compute; lia.
Defined.

Lemma unrecognized_symbol_witness :
  ∃ g', parse_map default_style unknown_glyph_map (Some (new_grid 2 1))
        = Some (Some g', Raised (Unrecognized "Z" (1, 0))).
Proof.
  destruct (unrecognized_symbol default_style unknown_glyph_map (new_grid 2 1) 2
              (load_state default_style 2 1 2 0 false) (new_grid 2 1)
              (str "| H   = Z   |") 0 1 "Z") as (g' & Hparse & _);
    try reflexivity; try (vm_compute; lia).
  - intros j' Hj'. destruct j' as [|[|j']]; [reflexivity|reflexivity|lia].
  - intros j' Hj'. destruct j' as [|j']; [reflexivity|lia].
  - exists g'. exact Hparse.
Defined.

Lemma grammar_errors_witness :
  ∃ g', parse_map default_style bad_corner_map (Some (new_grid 1 1))
        = Some (Some g', Raised (BadCorner 1 6 "*")).
Proof.
  destruct (grammar_errors default_style bad_corner_map (new_grid 1 1) eq_refl)
    as (_ & _ & _ & Hraise).
  destruct (Hraise 0 init_state (new_grid 1 1) (str "+-----*") 1) as [Hsep _];
    try reflexivity; try (vm_compute; lia).
  - intros j' Hj'. destruct j' as [|j']; [|lia].
    repeat split; try reflexivity. vm_compute. lia.
  - apply Hsep. reflexivity.
Defined.
